(** * BinarySearchTree<KeyType, ValueType>  (binary_search_tree.hpp)

    A shallow embedding of the unbalanced binary search tree of
    [binary_search_tree.hpp] and the proofs of its specification.

    - A [BinaryNode*] is a value of the inductive type [NodePointer]: either
      [nullptr] or a node holding its [data] pair and the two owned children.
      Ownership in the class is strictly hierarchical (nodes are created by
      [new] in [Insert]/[Copy] and linked exactly once), so a pointer graph is
      a finite tree.
    - [m_Size] is a [std::size_t]; it is a [Z] kept in [0, 2^64) and its
      increments and decrements wrap around.
    - The private recursive members thread [m_Size] explicitly: they take the
      current counter and return the new one next to the new subtree root.
    - [KeyType] is any type with a strict total order [operator<]
      ([operator>] being its converse), the class [KeyType] below. *)

From Stdlib Require Import ZArith List Bool Lia Sorted Ascii.
From stdpp Require Import base option list sorting gmap strings.

Local Open Scope Z_scope.

(* ===================================================================== *)
(** ** Keys: the comparison operators the template needs                 *)
(* ===================================================================== *)

Class KeyType (K : Type) := {
  key_ltb : K -> K -> bool;
  key_ltb_irrefl : forall a, key_ltb a a = false;
  key_ltb_trans : forall a b c,
      key_ltb a b = true -> key_ltb b c = true -> key_ltb a c = true;
  key_ltb_total : forall a b,
      key_ltb a b = false -> key_ltb b a = false -> a = b
}.

(** [a <k b] is [a < b]; [a >k b] is [a > b]. *)
Notation "a <k b" := (key_ltb a b) (at level 65, no associativity).
Notation "a >k b" := (key_ltb b a) (at level 65, no associativity, only parsing).

Definition key_lt {K} `{KeyType K} (a b : K) : Prop := key_ltb a b = true.

(** The three outcomes of the pair of tests [a < b], [a > b]. *)
Inductive key_cmp {K} `{KeyType K} (a b : K) : bool -> bool -> Prop :=
| key_cmp_lt : key_lt a b -> key_cmp a b true false
| key_cmp_eq : a = b -> key_cmp a b false false
| key_cmp_gt : key_lt b a -> key_cmp a b false true.

#[export] Program Instance Z_KeyType : KeyType Z := {| key_ltb := Z.ltb |}.
Next Obligation. intros a. apply Z.ltb_irrefl. Qed.
Next Obligation. intros a b c. rewrite !Z.ltb_lt. lia. Qed.
Next Obligation. intros a b. rewrite !Z.ltb_ge. lia. Qed.

#[export] Program Instance nat_KeyType : KeyType nat := {| key_ltb := Nat.ltb |}.
Next Obligation. intros a. apply Nat.ltb_irrefl. Qed.
Next Obligation. intros a b c. rewrite !Nat.ltb_lt. lia. Qed.
Next Obligation. intros a b. rewrite !Nat.ltb_ge. lia. Qed.

(* ===================================================================== *)
(** ** std::size_t arithmetic                                            *)
(* ===================================================================== *)

(** [SizeType = std::size_t], 64 bits wide. *)
Definition SIZE_MODULUS : Z := 2 ^ 64.

(** [++m_Size] *)
Definition size_incr (sz : Z) : Z := (sz + 1) mod SIZE_MODULUS.
(** [--m_Size] *)
Definition size_decr (sz : Z) : Z := (sz - 1) mod SIZE_MODULUS.

(* ===================================================================== *)
(** ** The data model                                                    *)
(* ===================================================================== *)

Section Tree.

Context {K V : Type} `{KT : KeyType K}.

(** [using Pair = std::pair<KeyType, ValueType>] *)
Definition Pair : Type := K * V.

(** [struct BinaryNode { Pair data; BinaryNode* left; BinaryNode* right; }]
    behind a [BinaryNode*]. *)
Inductive NodePointer : Type :=
| nullptr
| BinaryNode (data : Pair) (left right : NodePointer).

(** [NodePointer m_Root; SizeType m_Size;] *)
Record BinarySearchTree : Type := mkTree {
  m_Root : NodePointer;
  m_Size : Z
}.

(** [if (node)] *)
Definition nonnull (node : NodePointer) : bool :=
  match node with nullptr => false | BinaryNode _ _ _ => true end.

(** [node->data], which faults on [nullptr]. *)
Definition data_of (node : NodePointer) : option Pair :=
  match node with nullptr => None | BinaryNode d _ _ => Some d end.

(* --------------------------------------------------------------------- *)
(** *** Private members                                                   *)
(* --------------------------------------------------------------------- *)

(** [ConstNodePointer Min(ConstNodePointer node)]: [nullptr] for
    [nullptr], otherwise the node reached by following [left] links. *)
Fixpoint MinNode (node : NodePointer) : NodePointer :=
  match node with
  | nullptr => nullptr
  | BinaryNode _ l _ => if nonnull l then MinNode l else node
  end.

(** [ConstNodePointer Max(ConstNodePointer node)] *)
Fixpoint MaxNode (node : NodePointer) : NodePointer :=
  match node with
  | nullptr => nullptr
  | BinaryNode _ _ r => if nonnull r then MaxNode r else node
  end.

(** [NodePointer Find(const KeyType& key, NodePointer node)] (both the
    const and the non-const overload have this body). *)
Fixpoint FindNode (key : K) (node : NodePointer) : NodePointer :=
  match node with
  | nullptr => nullptr
  | BinaryNode d l r =>
      if key <k fst d then FindNode key l
      else if key >k fst d then FindNode key r
      else node
  end.

(** [NodePointer Copy(ConstNodePointer node)], when every [new] succeeds. *)
Fixpoint Copy (node : NodePointer) : NodePointer :=
  match node with
  | nullptr => nullptr
  | BinaryNode d l r => BinaryNode d (Copy l) (Copy r)
  end.

(** [void Clear(NodePointer& node)]: the value left in [node]. *)
Fixpoint ClearNode (node : NodePointer) : NodePointer :=
  match node with
  | nullptr => nullptr
  | BinaryNode _ l r =>
      let _ := if nonnull l then ClearNode l else l in
      let _ := if nonnull r then ClearNode r else r in
      nullptr
  end.

(** [NodePointer Insert(ConstReference data, NodePointer& node)] and its
    [Pair&&] overload (same comparisons; only the payload is moved instead of
    copied), when [new] succeeds.  Returns the node and the new [m_Size]. *)
Fixpoint InsertNode (data : Pair) (node : NodePointer) (sz : Z)
  : NodePointer * Z :=
  match node with
  | nullptr => (BinaryNode data nullptr nullptr, size_incr sz)
  | BinaryNode d l r =>
      if fst data <k fst d then
        let p := InsertNode data l sz in (BinaryNode d (fst p) r, snd p)
      else if fst data >k fst d then
        let p := InsertNode data r sz in (BinaryNode d l (fst p), snd p)
      else (node, sz)
  end.

(** [NodePointer Erase(const KeyType& key, NodePointer& node)].  In the
    two-children branch [node->right] is not null, so neither is
    [Min(node->right)] (lemma [MinNode_nonnull]) and its [->data] is
    defined: the [nullptr] arm of the inner match is never taken. *)
Fixpoint EraseNode (key : K) (node : NodePointer) (sz : Z)
  : NodePointer * Z :=
  match node with
  | nullptr => (nullptr, sz)
  | BinaryNode d l r =>
      if key <k fst d then
        let p := EraseNode key l sz in (BinaryNode d (fst p) r, snd p)
      else if key >k fst d then
        let p := EraseNode key r sz in (BinaryNode d l (fst p), snd p)
      else if nonnull l && nonnull r then
        match MinNode r with
        | BinaryNode d' _ _ =>
            let p := EraseNode (fst d') r sz in (BinaryNode d' l (fst p), snd p)
        | nullptr => (node, sz)
        end
      else
        (if nonnull l then l else r, size_decr sz)
  end.

(* --------------------------------------------------------------------- *)
(** *** Public members                                                    *)
(* --------------------------------------------------------------------- *)

(** [BinarySearchTree()] *)
Definition empty_tree : BinarySearchTree := mkTree nullptr 0.

(** [BinarySearchTree(ConstReference data)] *)
Definition init_tree (data : Pair) : BinarySearchTree :=
  mkTree (BinaryNode data nullptr nullptr) 1.

(** [BinarySearchTree(const BinarySearchTree& other)] *)
Definition copy_construct (other : BinarySearchTree) : BinarySearchTree :=
  mkTree (Copy (m_Root other)) (m_Size other).

(** [ConstReference Root() const]; [None] is the dereference of a null root. *)
Definition Root (t : BinarySearchTree) : option Pair := data_of (m_Root t).
Definition Size (t : BinarySearchTree) : Z := m_Size t.
Definition Empty (t : BinarySearchTree) : bool := m_Size t =? 0.

(** [Min()], [Max()]: [Min(m_Root)->data]. *)
Definition Min (t : BinarySearchTree) : option Pair := data_of (MinNode (m_Root t)).
Definition Max (t : BinarySearchTree) : option Pair := data_of (MaxNode (m_Root t)).

(** [Contains(key)]: [Find(key, m_Root) != nullptr]. *)
Definition Contains (key : K) (t : BinarySearchTree) : bool :=
  nonnull (FindNode key (m_Root t)).

(** [Find(key)]: [Find(key, m_Root)->data.second]. *)
Definition Find (key : K) (t : BinarySearchTree) : option V :=
  option_map snd (data_of (FindNode key (m_Root t))).

(** [void Clear()] *)
Definition Clear (t : BinarySearchTree) : BinarySearchTree :=
  mkTree (ClearNode (m_Root t)) 0.

(** [void Insert(ConstReference data)] / [void Insert(Pair&& data)] *)
Definition Insert (data : Pair) (t : BinarySearchTree) : BinarySearchTree :=
  let p := InsertNode data (m_Root t) (m_Size t) in mkTree (fst p) (snd p).

(** [void Erase(KeyType key)] *)
Definition Erase (key : K) (t : BinarySearchTree) : BinarySearchTree :=
  let p := EraseNode key (m_Root t) (m_Size t) in mkTree (fst p) (snd p).

End Tree.

Arguments NodePointer : clear implicits.
Arguments BinarySearchTree : clear implicits.
Arguments Pair : clear implicits.

(* ===================================================================== *)
(** ** Observations of a tree and its invariants                         *)
(* ===================================================================== *)

Section Observations.

Context {K V : Type} `{KT : KeyType K}.

Abbreviation NodePointer := (NodePointer K V).
Abbreviation BinarySearchTree := (BinarySearchTree K V).
Abbreviation Pair := (Pair K V).

(** The pairs met by an in-order traversal (left, node, right). *)
Fixpoint inorder (node : NodePointer) : list Pair :=
  match node with
  | nullptr => []
  | BinaryNode d l r => inorder l ++ d :: inorder r
  end.

Definition keys (node : NodePointer) : list K := map fst (inorder node).

(** The number of nodes reachable from [node]. *)
Fixpoint count_nodes (node : NodePointer) : nat :=
  match node with
  | nullptr => 0%nat
  | BinaryNode _ l r => S (count_nodes l + count_nodes r)
  end.

(** Every key stored below [node] satisfies [P]. *)
Fixpoint all_keys (P : K -> Prop) (node : NodePointer) : Prop :=
  match node with
  | nullptr => True
  | BinaryNode d l r => P (fst d) /\ all_keys P l /\ all_keys P r
  end.

(** The ordering invariant, node by node: the keys of the left subtree are
    strictly smaller than the node's, those of the right subtree strictly
    greater (so no key occurs twice). *)
Fixpoint bst (node : NodePointer) : Prop :=
  match node with
  | nullptr => True
  | BinaryNode d l r =>
      all_keys (fun k => key_lt k (fst d)) l /\
      all_keys (fun k => key_lt (fst d) k) r /\
      bst l /\ bst r
  end.

(** The class invariant: ordering, and [m_Size] counting the nodes. *)
Definition size_consistent (t : BinarySearchTree) : Prop :=
  m_Size t = Z.of_nat (count_nodes (m_Root t)) mod SIZE_MODULUS.

Definition tree_inv (t : BinarySearchTree) : Prop :=
  bst (m_Root t) /\ size_consistent t.

End Observations.

(* ===================================================================== *)
(** ** Sequences of operations                                           *)
(* ===================================================================== *)

Section Operations.

Context {K V : Type} `{KT : KeyType K}.

Abbreviation NodePointer := (NodePointer K V).
Abbreviation BinarySearchTree := (BinarySearchTree K V).
Abbreviation Pair := (Pair K V).

(** A call of [Insert] or of [Erase]. *)
Inductive Op : Type :=
| OpInsert (data : Pair)
| OpErase (key : K).

Definition op_key (o : Op) : K :=
  match o with OpInsert data => fst data | OpErase key => key end.

Definition apply_op (t : BinarySearchTree) (o : Op) : BinarySearchTree :=
  match o with
  | OpInsert data => Insert data t
  | OpErase key => Erase key t
  end.

(** The calls of [ops], in order, on the tree [t]. *)
Definition run (ops : list Op) (t : BinarySearchTree) : BinarySearchTree :=
  fold_left apply_op ops t.

(** The number of calls of [ops] that insert a key absent when they are
    made, and of those that erase a key present when they are made. *)
Fixpoint fresh_inserts (ops : list Op) (t : BinarySearchTree) : nat :=
  match ops with
  | [] => 0%nat
  | o :: ops' =>
      (match o with
       | OpInsert data => if Contains (fst data) t then 0 else 1
       | OpErase _ => 0
       end + fresh_inserts ops' (apply_op t o))%nat
  end.

Fixpoint present_erases (ops : list Op) (t : BinarySearchTree) : nat :=
  match ops with
  | [] => 0%nat
  | o :: ops' =>
      (match o with
       | OpInsert _ => 0
       | OpErase key => if Contains key t then 1 else 0
       end + present_erases ops' (apply_op t o))%nat
  end.

(** The values a [BinarySearchTree] object takes as long as every call
    returns: what the constructors build and what [Insert], [Erase] and
    [Clear] make of such a value when no [new] throws.  (A move leaves its
    source equal to [empty_tree] and gives its destination the source's
    value; a copy assignment that returns gives [copy_construct other].) *)
Inductive returned_value : BinarySearchTree -> Prop :=
| returned_default : returned_value empty_tree
| returned_init data : returned_value (init_tree data)
| returned_copy t : returned_value t -> returned_value (copy_construct t)
| returned_insert data t : returned_value t -> returned_value (Insert data t)
| returned_erase key t : returned_value t -> returned_value (Erase key t)
| returned_clear t : returned_value t -> returned_value (Clear t).

End Operations.

Arguments Op : clear implicits.

(* ===================================================================== *)
(** ** Positions in a tree                                               *)
(* ===================================================================== *)

Section Positions.

Context {K V : Type}.

Abbreviation NodePointer := (NodePointer K V).

(** A step from a node to its [left] or to its [right] child. *)
Inductive Direction : Type := GoLeft | GoRight.

(** The pointer found by following [path] from [node] ([nullptr] once the
    path leaves the tree). *)
Fixpoint subtree_at (path : list Direction) (node : NodePointer) : NodePointer :=
  match path, node with
  | [], _ => node
  | _ :: _, nullptr => nullptr
  | GoLeft :: path', BinaryNode _ l _ => subtree_at path' l
  | GoRight :: path', BinaryNode _ _ r => subtree_at path' r
  end.

(** The tree [node] with the link at the end of [path] set to [new]. *)
Fixpoint replace_at (path : list Direction) (new node : NodePointer) : NodePointer :=
  match path, node with
  | [], _ => new
  | _ :: _, nullptr => nullptr
  | GoLeft :: path', BinaryNode d l r => BinaryNode d (replace_at path' new l) r
  | GoRight :: path', BinaryNode d l r => BinaryNode d l (replace_at path' new r)
  end.

End Positions.

(* ===================================================================== *)
(** ** The scenario of the specification                                 *)
(* ===================================================================== *)

(** Keys [5,3,8,1,4,7,9] inserted in that order, [val k] stored with [k]. *)
Definition scenario_keys : list Z := [5; 3; 8; 1; 4; 7; 9].

Definition scenario_tree {V : Type} (val : Z -> V) : BinarySearchTree Z V :=
  run (map (fun k => OpInsert (k, val k)) scenario_keys) empty_tree.

(* ===================================================================== *)
(** ** LevelByLevel                                                      *)
(* ===================================================================== *)

(** ['\n'] and [' '] as written to the stream. *)
Definition newline : string := String "010"%char EmptyString.
Definition space : string := String " "%char EmptyString.

Section LevelByLevel.

Context {K V : Type}.

(** [out << value]: the text [operator<<] writes for a [ValueType]. *)
Variable show : V -> string.

Abbreviation NodePointer := (NodePointer K V).
Abbreviation BinarySearchTree := (BinarySearchTree K V).

(** [ConstNodePointer DELIMETER = nullptr;] *)
Definition DELIMETER : NodePointer := nullptr.

(** What one iteration of [while (1)] does with the queue [q] and the text
    [out] written so far. *)
Inductive Iteration : Type :=
| Continue (q : list NodePointer) (out : string)
| Break (out : string)
| EmptyFront.   (* [q.front()] on an empty queue *)

Definition LevelByLevel_body (q : list NodePointer) (out : string) : Iteration :=
  match q with
  | [] => EmptyFront
  | curr :: q =>                                  (* q.front(); q.pop(); *)
      match curr with
      | nullptr =>                                (* curr == DELIMETER *)
          let out := out +:+ newline in
          match q with
          | [] => Break out                       (* if (q.empty()) break; *)
          | _ :: _ => Continue (q ++ [DELIMETER]) out
          end
      | BinaryNode d l r =>
          let out := out +:+ show (snd d) +:+ space in
          let q := if nonnull l then q ++ [l] else q in
          let q := if nonnull r then q ++ [r] else q in
          Continue q out
      end
  end.

(** At most [fuel] iterations of the loop; [None] when they do not reach
    the [break] (or when the queue runs empty under [front()]). *)
Fixpoint LevelByLevel_loop (fuel : nat) (q : list NodePointer) (out : string)
  : option string :=
  match fuel with
  | O => None
  | S fuel =>
      match LevelByLevel_body q out with
      | Continue q out => LevelByLevel_loop fuel q out
      | Break out => Some out
      | EmptyFront => None
      end
  end.

(** [void LevelByLevel(std::ostream& out) const]: the text written. *)
Definition LevelByLevel (fuel : nat) (t : BinarySearchTree) : option string :=
  if nonnull (m_Root t) then
    LevelByLevel_loop fuel [m_Root t; DELIMETER] EmptyString
  else Some EmptyString.

(* --------------------------------------------------------------------- *)
(** *** The output as the specification words it                          *)
(* --------------------------------------------------------------------- *)

(** The values stored at depth [depth] below [node], left to right. *)
Fixpoint level_values (depth : nat) (node : NodePointer) {struct node} : list V :=
  match node, depth with
  | nullptr, _ => []
  | BinaryNode d _ _, O => [snd d]
  | BinaryNode _ l r, S depth => level_values depth l ++ level_values depth r
  end.

Fixpoint height (node : NodePointer) : nat :=
  match node with
  | nullptr => 0%nat
  | BinaryNode _ l r => S (Nat.max (height l) (height r))
  end.

(** The values grouped by depth, shallow to deep. *)
Definition levels (node : NodePointer) : list (list V) :=
  map (fun depth => level_values depth node) (seq 0 (height node)).

(** One line: each value followed by a single space, then a line break. *)
Definition render_line (vs : list V) : string :=
  fold_right (fun v s => show v +:+ space +:+ s) newline vs.

Definition render (lines : list (list V)) : string :=
  fold_right (fun vs s => render_line vs +:+ s) EmptyString lines.

(* --------------------------------------------------------------------- *)
(** *** The nodes of one level, as the queue holds them                   *)
(* --------------------------------------------------------------------- *)

(** The children the loop pushes for [node]: the non-null ones, left first. *)
Definition child_nodes (node : NodePointer) : list NodePointer :=
  match node with
  | nullptr => []
  | BinaryNode _ l r =>
      (if nonnull l then [l] else []) ++ (if nonnull r then [r] else [])
  end.

Definition next_level (nodes : list NodePointer) : list NodePointer :=
  flat_map child_nodes nodes.

Definition forest_values (depth : nat) (nodes : list NodePointer) : list V :=
  flat_map (level_values depth) nodes.

Definition forest_height (nodes : list NodePointer) : nat :=
  fold_right (fun node h => Nat.max (height node) h) 0%nat nodes.

Definition forest_count (nodes : list NodePointer) : nat :=
  fold_right (fun node c => (count_nodes node + c)%nat) 0%nat nodes.

(** The text of the values of one line, before its line break. *)
Definition line_text (vs : list V) : string :=
  fold_right (fun v s => show v +:+ space +:+ s) EmptyString vs.

Definition all_nonnull (nodes : list NodePointer) : Prop :=
  Forall (fun node => nonnull node = true) nodes.

End LevelByLevel.

(* ===================================================================== *)
(** ** Objects: copy and move between two trees                          *)
(* ===================================================================== *)

Section Objects.

Context {K V : Type}.

Abbreviation BinarySearchTree := (BinarySearchTree K V).

(** The live [BinarySearchTree] objects, by address. *)
Abbreviation Store := (gmap nat BinarySearchTree).

(** Writes to the members of the object at address [a]. *)
Definition set_Root (a : nat) (root : NodePointer K V) (σ : Store) : Store :=
  alter (fun t => mkTree root (m_Size t)) a σ.
Definition set_Size (a : nat) (size : Z) (σ : Store) : Store :=
  alter (fun t => mkTree (m_Root t) size) a σ.

(** [BinarySearchTree(BinarySearchTree&& other)], constructing the object at
    the fresh address [this]. *)
Definition move_construct (this other : nat) (σ : Store) : option Store :=
  match σ !! this with
  | Some _ => None
  | None =>
      o ← σ !! other;
      let σ := <[this := mkTree (m_Root o) (m_Size o)]> σ in
      let σ := set_Root other nullptr σ in      (* other.m_Root = nullptr; *)
      let σ := set_Size other 0 σ in            (* other.m_Size = 0; *)
      Some σ
  end.

(** [BinarySearchTree& operator=(BinarySearchTree&& other)] *)
Definition move_assign (this other : nat) (σ : Store) : option Store :=
  _ ← σ !! this;
  _ ← σ !! other;
  if decide (this = other) then Some σ          (* return *this; *)
  else
    let σ := alter Clear this σ in              (* Clear(); *)
    o ← σ !! other;
    let σ := set_Root this (m_Root o) σ in      (* m_Root = other.m_Root; *)
    o ← σ !! other;
    let σ := set_Size this (m_Size o) σ in      (* m_Size = other.m_Size; *)
    let σ := set_Root other nullptr σ in        (* other.m_Root = nullptr; *)
    let σ := set_Size other 0 σ in              (* other.m_Size = 0; *)
    Some σ.

End Objects.

(* ===================================================================== *)
(** ** Allocation failure                                                *)
(* ===================================================================== *)

(** How a member call ends: it returns, or [std::bad_alloc] propagates to
    the caller; either way with the object(s) as the call left them. *)
Inductive Outcome (S : Type) : Type :=
| Returned (s : S)
| BadAlloc (s : S).
Arguments Returned {S} s.
Arguments BadAlloc {S} s.

Section Allocation.

Context {K V : Type} `{KT : KeyType K}.

Abbreviation NodePointer := (NodePointer K V).
Abbreviation BinarySearchTree := (BinarySearchTree K V).
Abbreviation Pair := (Pair K V).
Abbreviation Store := (gmap nat BinarySearchTree).

(** The free store is the number [avail] of [new BinaryNode(...)] that
    still succeed; the next one throws [std::bad_alloc]. *)

(** [Copy(node)]: the copy and the remaining free store, or [None] when a
    [new] throws (the nodes copied so far are then unreachable). *)
Fixpoint Copy_alloc (node : NodePointer) (avail : nat)
  : option (NodePointer * nat) :=
  match node with
  | nullptr => Some (nullptr, avail)
  | BinaryNode d l r =>
      match avail with
      | O => None                                (* new BinaryNode(node->data) *)
      | S avail =>
          '(l', avail) ← Copy_alloc l avail;     (* root->left = Copy(node->left); *)
          '(r', avail) ← Copy_alloc r avail;     (* root->right = Copy(node->right); *)
          Some (BinaryNode d l' r', avail)
      end
  end.

(** [operator=(const BinarySearchTree& other)] on the objects at [this] and
    [other] ([None]: not the address of an object). *)
Definition copy_assign (this other : nat) (avail : nat) (σ : Store)
  : option (Outcome Store) :=
  _ ← σ !! this;
  _ ← σ !! other;
  if decide (this = other) then Some (Returned σ)   (* return *this; *)
  else
    let σ := alter Clear this σ in                  (* Clear(); *)
    o ← σ !! other;
    match Copy_alloc (m_Root o) avail with
    | None => Some (BadAlloc σ)
    | Some (root, _) =>
        let σ := set_Root this root σ in            (* m_Root = Copy(other.m_Root); *)
        o ← σ !! other;
        let σ := set_Size this (m_Size o) σ in      (* m_Size = other.m_Size; *)
        Some (Returned σ)
    end.

(** [Insert(data, node)] with a fallible [new]: [++m_Size] comes before
    [new BinaryNode(data)], and a pending [node->left = ...] is skipped when
    the recursive call throws. *)
Fixpoint InsertNode_alloc (data : Pair) (node : NodePointer) (sz : Z) (avail : nat)
  : Outcome (NodePointer * Z) :=
  match node with
  | nullptr =>
      let sz := size_incr sz in                          (* ++m_Size; *)
      match avail with
      | O => BadAlloc (nullptr, sz)
      | S _ => Returned (BinaryNode data nullptr nullptr, sz)
      end
  | BinaryNode d l r =>
      if fst data <k fst d then
        match InsertNode_alloc data l sz avail with
        | Returned p => Returned (BinaryNode d (fst p) r, snd p)
        | BadAlloc p => BadAlloc (BinaryNode d (fst p) r, snd p)
        end
      else if fst data >k fst d then
        match InsertNode_alloc data r sz avail with
        | Returned p => Returned (BinaryNode d l (fst p), snd p)
        | BadAlloc p => BadAlloc (BinaryNode d l (fst p), snd p)
        end
      else Returned (node, sz)
  end.

Definition Insert_alloc (data : Pair) (avail : nat) (t : BinarySearchTree)
  : Outcome BinarySearchTree :=
  match InsertNode_alloc data (m_Root t) (m_Size t) avail with
  | Returned p => Returned (mkTree (fst p) (snd p))
  | BadAlloc p => BadAlloc (mkTree (fst p) (snd p))
  end.

(** The values a [BinarySearchTree] object can take: what the constructors
    build and what the mutating members make of such a value, also when
    [new] throws in [Insert] and the caller keeps the object.  (A move
    leaves its source equal to [empty_tree] and gives its destination the
    source's value; a copy assignment gives [copy_construct other] when it
    returns and [Clear] of the object when [Copy] throws.) *)
Inductive reachable : BinarySearchTree -> Prop :=
| reach_default : reachable empty_tree
| reach_init data : reachable (init_tree data)
| reach_copy t : reachable t -> reachable (copy_construct t)
| reach_insert data avail t t' :
    reachable t -> Insert_alloc data avail t = Returned t' -> reachable t'
| reach_insert_throws data avail t t' :
    reachable t -> Insert_alloc data avail t = BadAlloc t' -> reachable t'
| reach_erase key t : reachable t -> reachable (Erase key t)
| reach_clear t : reachable t -> reachable (Clear t).

(** Every object of the store holds a value that calls which all returned
    have produced. *)
Definition store_returned (σ : Store) : Prop :=
  forall c t, σ !! c = Some t -> returned_value t.

End Allocation.

(* ===================================================================== *)
(** ** Concrete trees and objects                                        *)
(* ===================================================================== *)

(** The scenario tree with the value [10 * k] stored under the key [k], and
    with the decimal name of the key as its value. *)
Definition demo_val (k : Z) : Z := 10 * k.

Definition demo_name (k : Z) : string :=
  match k with
  | 1 => "1" | 3 => "3" | 4 => "4" | 5 => "5" | 7 => "7" | 8 => "8" | 9 => "9"
  | _ => "?"
  end.

Definition demo_tree : BinarySearchTree Z Z := scenario_tree demo_val.

(** The two subtrees below the root [5] of [demo_tree]. *)
Definition demo_left : NodePointer Z Z :=
  BinaryNode (3, 30) (BinaryNode (1, 10) nullptr nullptr)
                     (BinaryNode (4, 40) nullptr nullptr).
Definition demo_right : NodePointer Z Z :=
  BinaryNode (8, 80) (BinaryNode (7, 70) nullptr nullptr)
                     (BinaryNode (9, 90) nullptr nullptr).

(** The scenario, then: erase 5, insert 3 again, erase the absent 42. *)
Definition demo_ops : list (Op Z Z) :=
  map (fun k => OpInsert (k, demo_val k)) scenario_keys
    ++ [OpErase 5; OpInsert (3, 0); OpErase 42].

(** The object an [Insert] into the empty tree leaves when its [new]
    throws: no node, [m_Size] 1. *)
Definition miscounted_tree : BinarySearchTree Z Z := mkTree nullptr 1.

(** Two objects: a one-node tree at address 0 and another at address 1. *)
Definition demo_store : gmap nat (BinarySearchTree Z Z) :=
  <[0%nat := init_tree (1, 10)]> (<[1%nat := init_tree (2, 20)]> ∅).

(* ===================================================================== *)
(** ** Further members and observations                                  *)
(* ===================================================================== *)

Section FurtherDefinitions.

Context {K V : Type} `{KT : KeyType K}.

Abbreviation NodePointer := (NodePointer K V).
Abbreviation BinarySearchTree := (BinarySearchTree K V).
Abbreviation Pair := (Pair K V).

(** The keys the members treat as the same: neither [a < b] nor [a > b]
    (the last [else] of [Find], [Insert] and [Erase]). *)
Definition key_eqb (a b : K) : bool := negb (a <k b) && negb (b <k a).

(** The stored values, in in-order. *)
Definition values (node : NodePointer) : list V := map snd (inorder node).

(** [Find(key, node)->data.second = value]: the tree after a write through
    the pointer that the non-const [Find(key, node)] returns. *)
Fixpoint assign_at (key : K) (value : V) (node : NodePointer) : NodePointer :=
  match node with
  | nullptr => nullptr
  | BinaryNode d l r =>
      if key <k fst d then BinaryNode d (assign_at key value l) r
      else if key >k fst d then BinaryNode d l (assign_at key value r)
      else BinaryNode (fst d, value) l r
  end.

(** [tree.Find(key) = value;] with the reference that
    [ValueType& Find(const KeyType& key)] returns; [None] is the write
    through [nullptr->data.second] when [Find(key, m_Root)] is null. *)
Definition Find_assign (key : K) (value : V) (t : BinarySearchTree)
  : option BinarySearchTree :=
  if nonnull (FindNode key (m_Root t))
  then Some (mkTree (assign_at key value (m_Root t)) (m_Size t))
  else None.

(** [void Clear(NodePointer& node)]: the pairs of the nodes it [delete]s, in
    the order of the [delete]s. *)
Fixpoint Clear_deleted (node : NodePointer) : list Pair :=
  match node with
  | nullptr => []
  | BinaryNode d l r =>
      (if nonnull l then Clear_deleted l else [])     (* Clear(node->left); *)
      ++ (if nonnull r then Clear_deleted r else [])  (* Clear(node->right); *)
      ++ [d]                                          (* delete node; *)
  end.

(** The order of the stored pairs: by key. *)
Definition pair_lt (p q : Pair) : Prop := key_lt (fst p) (fst q).

(** The chain that leans to the right: each pair the right child of the one
    before it. *)
Fixpoint right_chain (ds : list Pair) : NodePointer :=
  match ds with
  | [] => nullptr
  | d :: ds => BinaryNode d nullptr (right_chain ds)
  end.

End FurtherDefinitions.

(* ===================================================================== *)
(** ** Reasoning about the key order                                     *)
(* ===================================================================== *)

Section KeyFacts.

Context {K : Type} `{KT : KeyType K}.

Lemma key_lt_irrefl (a : K) : ~ key_lt a a.
Proof. unfold key_lt. rewrite key_ltb_irrefl. discriminate. Qed.

Lemma key_lt_trans (a b c : K) : key_lt a b -> key_lt b c -> key_lt a c.
Proof. apply key_ltb_trans. Qed.

Lemma key_lt_asym (a b : K) : key_lt a b -> key_lt b a -> False.
Proof. intros H1 H2. exact (key_lt_irrefl a (key_lt_trans _ _ _ H1 H2)). Qed.

Lemma key_cmpP (a b : K) : key_cmp a b (a <k b) (b <k a).
Proof.
  destruct (a <k b) eqn:Hab, (b <k a) eqn:Hba.
  - destruct (key_lt_asym a b Hab Hba).
  - now constructor.
  - now constructor.
  - constructor. now apply key_ltb_total.
Qed.

Lemma key_ltb_false_of_lt (a b : K) : key_lt a b -> b <k a = false.
Proof.
  intros H. destruct (b <k a) eqn:E; [|reflexivity].
  destruct (key_lt_asym a b H E).
Qed.

Lemma key_lt_total (a b : K) : a <> b -> key_lt a b \/ key_lt b a.
Proof.
  intros Hne. destruct (key_cmpP a b); [now left | contradiction | now right].
Qed.

End KeyFacts.

(** [key_order] closes a goal that follows from the hypotheses by
    transitivity and irreflexivity of [key_lt]. *)
Ltac key_saturate :=
  repeat match goal with
  | H : key_ltb ?a ?b = true |- _ => change (key_lt a b) in H
  | H1 : key_lt ?a ?b, H2 : key_lt ?b ?c |- _ =>
      lazymatch goal with
      | _ : key_lt a c |- _ => fail
      | _ => pose proof (key_lt_trans a b c H1 H2)
      end
  end.

Ltac key_order :=
  subst; key_saturate;
  try match goal with
  | H : key_lt ?a ?a |- _ => destruct (key_lt_irrefl a H)
  | H : ?a <> ?a |- _ => destruct (H eq_refl)
  end;
  try assumption; try reflexivity;
  try match goal with
  | |- key_ltb ?a ?b = true => change (key_lt a b); assumption
  | |- key_ltb ?a ?b = false => apply key_ltb_false_of_lt; assumption
  end.

(** Case analysis on the comparisons [key < k'] / [key > k'] of the goal. *)
Ltac key_cases a b :=
  let H := fresh "Hcmp" in
  destruct (key_cmpP a b) as [H|H|H]; simpl;
  [ rewrite ?(H : key_ltb a b = true), ?(key_ltb_false_of_lt a b H); simpl
  | rewrite ?key_ltb_irrefl; simpl
  | rewrite ?(H : key_ltb b a = true), ?(key_ltb_false_of_lt b a H); simpl ].

(* ===================================================================== *)
(** ** Basic facts about the private members                             *)
(* ===================================================================== *)

Section Basics.

Context {K V : Type} `{KT : KeyType K}.

Abbreviation NodePointer := (NodePointer K V).
Abbreviation BinarySearchTree := (BinarySearchTree K V).
Abbreviation Pair := (Pair K V).

Implicit Types (node l r : NodePointer) (d data : Pair) (key k : K) (sz : Z).

Lemma MinNode_nonnull node : nonnull node = true -> nonnull (MinNode node) = true.
Proof.
  induction node as [|d l IHl r _]; simpl; [discriminate|].
  intros _. destruct (nonnull l) eqn:E; [now apply IHl | reflexivity].
Qed.

Lemma MaxNode_nonnull node : nonnull node = true -> nonnull (MaxNode node) = true.
Proof.
  induction node as [|d l _ r IHr]; simpl; [discriminate|].
  intros _. destruct (nonnull r) eqn:E; [now apply IHr | reflexivity].
Qed.

Lemma Copy_id node : Copy node = node.
Proof. induction node as [|d l IHl r IHr]; simpl; congruence. Qed.

Lemma ClearNode_null node : ClearNode node = nullptr.
Proof. destruct node; reflexivity. Qed.

Lemma count_nodes_inorder node : count_nodes node = length (inorder node).
Proof.
  induction node as [|d l IHl r IHr]; simpl; [reflexivity|].
  rewrite length_app. simpl. lia.
Qed.

Lemma count_nodes_zero node : count_nodes node = 0%nat <-> node = nullptr.
Proof. destruct node; simpl; split; intros; congruence. Qed.

(* --------------------------------------------------------------------- *)
(** *** [all_keys]                                                        *)
(* --------------------------------------------------------------------- *)

Lemma all_keys_impl (P Q : K -> Prop) node :
  (forall k, P k -> Q k) -> all_keys P node -> all_keys Q node.
Proof.
  intros HPQ. induction node as [|d l IHl r IHr]; simpl; [trivial|].
  intros (H1 & H2 & H3). auto.
Qed.

Lemma all_keys_Forall (P : K -> Prop) node :
  all_keys P node <-> Forall P (keys node).
Proof.
  unfold keys. induction node as [|d l IHl r IHr]; simpl.
  - split; [constructor | trivial].
  - rewrite map_app. simpl. rewrite Forall_app, Forall_cons_iff.
    rewrite IHl, IHr. tauto.
Qed.

Lemma all_keys_lt_trans (a b : K) node :
  key_lt a b -> all_keys (fun k => key_lt k a) node ->
  all_keys (fun k => key_lt k b) node.
Proof.
  intros Hab. apply all_keys_impl. intros k Hk. exact (key_lt_trans _ _ _ Hk Hab).
Qed.

Lemma all_keys_gt_trans (a b : K) node :
  key_lt a b -> all_keys (fun k => key_lt b k) node ->
  all_keys (fun k => key_lt a k) node.
Proof.
  intros Hab. apply all_keys_impl. intros k Hk. exact (key_lt_trans _ _ _ Hab Hk).
Qed.

(** A key outside the range of a subtree is not found in it. *)
Lemma FindNode_all_keys (P : K -> Prop) key node :
  all_keys P node -> nonnull (FindNode key node) = true -> P key.
Proof.
  induction node as [|d l IHl r IHr]; simpl; [discriminate|].
  intros (Hd & Hl & Hr). key_cases key (fst d); auto. now subst.
Qed.

Lemma FindNode_above key node :
  all_keys (fun k => key_lt k key) node -> FindNode key node = nullptr.
Proof.
  intros H. destruct (FindNode key node) eqn:E; [reflexivity|].
  destruct (key_lt_irrefl key).
  eapply (FindNode_all_keys (fun k => key_lt k key)); eauto. now rewrite E.
Qed.

Lemma FindNode_below key node :
  all_keys (fun k => key_lt key k) node -> FindNode key node = nullptr.
Proof.
  intros H. destruct (FindNode key node) eqn:E; [reflexivity|].
  destruct (key_lt_irrefl key).
  eapply (FindNode_all_keys (fun k => key_lt key k)); eauto. now rewrite E.
Qed.

(** What [Find] returns is a node that carries the key. *)
Lemma FindNode_key key node d l r :
  FindNode key node = BinaryNode d l r -> fst d = key.
Proof.
  induction node as [|d0 l0 IHl r0 IHr]; simpl; [discriminate|].
  key_cases key (fst d0); auto. intros [= <- _ _]. now subst.
Qed.

Lemma FindNode_In key node :
  nonnull (FindNode key node) = true -> In key (keys node).
Proof.
  unfold keys. induction node as [|d l IHl r IHr]; simpl; [discriminate|].
  rewrite map_app, in_app_iff. simpl.
  key_cases key (fst d); intros H; auto.
Qed.

End Basics.

(* ===================================================================== *)
(** ** Insert                                                            *)
(* ===================================================================== *)

Section InsertFacts.

Context {K V : Type} `{KT : KeyType K}.

Abbreviation NodePointer := (NodePointer K V).
Abbreviation BinarySearchTree := (BinarySearchTree K V).
Abbreviation Pair := (Pair K V).

Implicit Types (node l r : NodePointer) (d data : Pair) (key k : K) (sz : Z).

(** A key that [Find] reaches is left alone: node and counter unchanged. *)
Lemma InsertNode_present data node sz :
  nonnull (FindNode (fst data) node) = true -> InsertNode data node sz = (node, sz).
Proof.
  induction node as [|d l IHl r IHr]; simpl; [discriminate|].
  key_cases (fst data) (fst d); intros H.
  - now rewrite IHl.
  - reflexivity.
  - now rewrite IHr.
Qed.

(** A key that [Find] does not reach gets one new node, and one increment. *)
Lemma InsertNode_absent data node sz :
  FindNode (fst data) node = nullptr ->
  count_nodes (fst (InsertNode data node sz)) = S (count_nodes node) /\
  snd (InsertNode data node sz) = size_incr sz.
Proof.
  induction node as [|d l IHl r IHr]; simpl; [auto|].
  key_cases (fst data) (fst d); intros H.
  - destruct (IHl H) as [-> ->]. split; [lia | reflexivity].
  - discriminate.
  - destruct (IHr H) as [-> ->]. split; [lia | reflexivity].
Qed.

(** The inserted pair is placed where [Find] looks for its key. *)
Lemma FindNode_InsertNode_same data node sz :
  FindNode (fst data) node = nullptr ->
  data_of (FindNode (fst data) (fst (InsertNode data node sz))) = Some data.
Proof.
  induction node as [|d l IHl r IHr]; simpl.
  - intros _. now rewrite key_ltb_irrefl.
  - key_cases (fst data) (fst d); intros H; auto; discriminate.
Qed.

(** Inserting a pair does not disturb what [Find] returns for another key. *)
Lemma FindNode_InsertNode_other key data node sz :
  key <> fst data ->
  data_of (FindNode key (fst (InsertNode data node sz))) = data_of (FindNode key node).
Proof.
  intros Hne. induction node as [|d l IHl r IHr]; simpl.
  - key_cases key (fst data); [reflexivity | contradiction | reflexivity].
  - key_cases (fst data) (fst d); key_cases key (fst d); auto.
Qed.

Lemma all_keys_InsertNode (P : K -> Prop) data node sz :
  P (fst data) -> all_keys P node -> all_keys P (fst (InsertNode data node sz)).
Proof.
  intros Hd. induction node as [|d l IHl r IHr]; simpl; [auto|].
  intros (H1 & H2 & H3).
  key_cases (fst data) (fst d); auto.
Qed.

Lemma bst_InsertNode data node sz :
  bst node -> bst (fst (InsertNode data node sz)).
Proof.
  induction node as [|d l IHl r IHr]; simpl; [auto|].
  intros (Hl & Hr & Bl & Br).
  key_cases (fst data) (fst d); auto 6 using all_keys_InsertNode.
Qed.

End InsertFacts.

(* ===================================================================== *)
(** ** Min and Erase                                                     *)
(* ===================================================================== *)

Section EraseFacts.

Context {K V : Type} `{KT : KeyType K}.

Abbreviation NodePointer := (NodePointer K V).
Abbreviation BinarySearchTree := (BinarySearchTree K V).
Abbreviation Pair := (Pair K V).

Implicit Types (node l r : NodePointer) (d data m : Pair) (key k : K) (sz : Z).

(** The node [Min] returns has no left child and belongs to the tree. *)
Lemma MinNode_left_null node m ml mr :
  MinNode node = BinaryNode m ml mr -> ml = nullptr.
Proof.
  induction node as [|d l IHl r _]; simpl; [discriminate|].
  destruct l as [|dl ll lr]; simpl in *; [|exact IHl].
  now intros [= _ <- _].
Qed.

Lemma MinNode_all_keys (P : K -> Prop) node m ml mr :
  all_keys P node -> MinNode node = BinaryNode m ml mr -> P (fst m).
Proof.
  induction node as [|d l IHl r _]; simpl; [discriminate|].
  intros (Hd & Hl & _).
  destruct l as [|dl ll lr]; simpl in *; [|now apply IHl].
  now intros [= <- _ _].
Qed.

(** In a search tree no key is smaller than the one [Min] returns. *)
Lemma MinNode_least node m ml mr :
  bst node -> MinNode node = BinaryNode m ml mr ->
  all_keys (fun k => ~ key_lt k (fst m)) node.
Proof.
  induction node as [|d l IHl r _]; simpl; [trivial|].
  intros (Hl & Hr & Bl & Br).
  destruct l as [|dl ll lr].
  - simpl. intros [= <- _ _]. repeat split.
    + apply key_lt_irrefl.
    + eapply all_keys_impl; [|exact Hr]. simpl. intros k Hk Hk'. key_order.
  - intros Hm. change (MinNode (BinaryNode dl ll lr) = BinaryNode m ml mr) in Hm.
    assert (Hmd : key_lt (fst m) (fst d))
      by exact (MinNode_all_keys _ _ _ _ _ Hl Hm).
    split; [|split].
    + intros Hk. key_order.
    + now apply IHl.
    + eapply all_keys_impl; [|exact Hr]. simpl. intros k Hk Hk'. key_order.
Qed.

(** [Find] applied to the minimum's key returns the minimum node. *)
Lemma FindNode_MinNode node m ml mr :
  bst node -> MinNode node = BinaryNode m ml mr ->
  FindNode (fst m) node = BinaryNode m ml mr.
Proof.
  induction node as [|d l IHl r _]; simpl; [discriminate|].
  intros (Hl & Hr & Bl & Br).
  destruct l as [|dl ll lr].
  - simpl. intros [= <- <- <-]. now rewrite key_ltb_irrefl.
  - intros Hm. change (MinNode (BinaryNode dl ll lr) = BinaryNode m ml mr) in Hm.
    assert (Hmd : key_lt (fst m) (fst d))
      by exact (MinNode_all_keys _ _ _ _ _ Hl Hm).
    rewrite Hmd. now apply IHl.
Qed.

(** A key that [Find] does not reach: [Erase] changes nothing. *)
Lemma EraseNode_absent key node sz :
  FindNode key node = nullptr -> EraseNode key node sz = (node, sz).
Proof.
  induction node as [|d l IHl r IHr]; simpl; [reflexivity|].
  key_cases key (fst d); intros H.
  - now rewrite IHl.
  - discriminate.
  - now rewrite IHr.
Qed.

(** Each call removes at most one node, and decrements [m_Size] exactly
    when it removes one (on any tree, ordered or not). *)
Lemma EraseNode_size_step key node sz :
  (count_nodes (fst (EraseNode key node sz)) = count_nodes node /\
   snd (EraseNode key node sz) = sz) \/
  (S (count_nodes (fst (EraseNode key node sz))) = count_nodes node /\
   snd (EraseNode key node sz) = size_decr sz).
Proof.
  revert key. induction node as [|d l IHl r IHr]; intros key; simpl; [auto|].
  key_cases key (fst d).
  - destruct (IHl key) as [[-> ->]|[<- ->]]; [left|right]; split; auto; lia.
  - destruct (nonnull l && nonnull r) eqn:E; simpl.
    + destruct (MinNode r) as [|m ml mr] eqn:Hm; simpl; [left; auto|].
      destruct (IHr (fst m)) as [[H1 H2]|[H1 H2]]; rewrite H2;
        [left|right]; split; auto; lia.
    + right. split; [|reflexivity].
      destruct l, r; simpl in *; try discriminate; lia.
  - destruct (IHr key) as [[-> ->]|[<- ->]]; [left|right]; split; auto; lia.
Qed.

Lemma all_keys_EraseNode (P : K -> Prop) key node sz :
  all_keys P node -> all_keys P (fst (EraseNode key node sz)).
Proof.
  revert key. induction node as [|d l IHl r IHr]; intros key; simpl; [auto|].
  intros (Hd & Hl & Hr).
  key_cases key (fst d); auto.
  destruct (nonnull l && nonnull r) eqn:E; simpl.
  - destruct (MinNode r) as [|m ml mr] eqn:Hm; simpl; auto.
    split; [|auto]. exact (MinNode_all_keys P _ _ _ _ Hr Hm).
  - destruct (nonnull l); auto.
Qed.

(** Erasing the minimum's key from a search tree removes exactly the
    minimum node, the first pair of the in-order traversal. *)
Lemma EraseNode_MinNode node m ml mr sz :
  bst node -> MinNode node = BinaryNode m ml mr ->
  inorder node = m :: inorder (fst (EraseNode (fst m) node sz)) /\
  snd (EraseNode (fst m) node sz) = size_decr sz /\
  all_keys (fun k => key_lt (fst m) k) (fst (EraseNode (fst m) node sz)).
Proof.
  induction node as [|d l IHl r _]; simpl; [discriminate|].
  intros (Hl & Hr & Bl & Br).
  destruct l as [|dl ll lr].
  - simpl. intros [= <- _ _]. rewrite key_ltb_irrefl. simpl. auto.
  - intros Hm. change (MinNode (BinaryNode dl ll lr) = BinaryNode m ml mr) in Hm.
    assert (Hmd : key_lt (fst m) (fst d))
      by exact (MinNode_all_keys _ _ _ _ _ Hl Hm).
    rewrite Hmd. cbn [fst snd inorder all_keys].
    destruct (IHl Bl Hm) as (Hin & Hsz & Hall).
    rewrite Hin at 1. repeat split; auto.
    eapply all_keys_gt_trans; eauto.
Qed.

Lemma bst_EraseNode key node sz :
  bst node -> bst (fst (EraseNode key node sz)).
Proof.
  revert key. induction node as [|d l IHl r IHr]; intros key; simpl; [auto|].
  intros (Hl & Hr & Bl & Br).
  key_cases key (fst d); auto 6 using all_keys_EraseNode.
  destruct (nonnull l && nonnull r) eqn:E; simpl.
  - destruct (MinNode r) as [|m ml mr] eqn:Hm; simpl; auto.
    assert (Hdm : key_lt (fst d) (fst m))
      by exact (MinNode_all_keys _ _ _ _ _ Hr Hm).
    destruct (EraseNode_MinNode r m ml mr sz Br Hm) as (_ & _ & Hall).
    repeat split; auto. eapply all_keys_lt_trans; eauto.
  - destruct (nonnull l); auto.
Qed.

End EraseFacts.

(* ===================================================================== *)
(** ** Erase and Find on search trees                                    *)
(* ===================================================================== *)

Section EraseFind.

Context {K V : Type} `{KT : KeyType K}.

Abbreviation NodePointer := (NodePointer K V).
Abbreviation BinarySearchTree := (BinarySearchTree K V).
Abbreviation Pair := (Pair K V).

Implicit Types (node l r : NodePointer) (d data m : Pair) (key k : K) (sz : Z).

(** The two-children branch of [Erase], spelled out. *)
Lemma EraseNode_two_children d l r sz :
  nonnull l = true -> nonnull r = true ->
  exists m mr,
    MinNode r = BinaryNode m nullptr mr /\
    EraseNode (fst d) (BinaryNode d l r) sz =
      (BinaryNode m l (fst (EraseNode (fst m) r sz)),
       snd (EraseNode (fst m) r sz)).
Proof.
  intros Hl Hr. simpl. rewrite key_ltb_irrefl, Hl, Hr. simpl.
  pose proof (MinNode_nonnull r Hr) as Hn.
  destruct (MinNode r) as [|m ml mr] eqn:Hm; [discriminate|].
  pose proof (MinNode_left_null _ _ _ _ Hm) as ->.
  now exists m, mr.
Qed.

(** On a search tree, a key that [Find] reaches loses exactly one node. *)
Lemma EraseNode_present key node sz :
  bst node -> nonnull (FindNode key node) = true ->
  S (count_nodes (fst (EraseNode key node sz))) = count_nodes node /\
  snd (EraseNode key node sz) = size_decr sz.
Proof.
  revert key. induction node as [|d l IHl r IHr]; intros key; simpl; [discriminate|].
  intros (Hl & Hr & Bl & Br).
  key_cases key (fst d); intros Hf.
  - destruct (IHl key Bl Hf) as [<- ->]. split; [lia | reflexivity].
  - destruct (nonnull l && nonnull r) eqn:E; simpl.
    + apply andb_prop in E as [_ Er].
      pose proof (MinNode_nonnull r Er) as Hn.
      destruct (MinNode r) as [|m ml mr] eqn:Hm; [discriminate|]. simpl.
      destruct (EraseNode_MinNode r m ml mr sz Br Hm) as (Hin & Hsz & _).
      split; [|exact Hsz].
      assert (Hc : count_nodes r = S (count_nodes (fst (EraseNode (fst m) r sz)))).
      { rewrite (count_nodes_inorder r), Hin. simpl.
        now rewrite count_nodes_inorder. }
      lia.
    + split; [|reflexivity].
      destruct l, r; simpl in *; try discriminate; lia.
  - destruct (IHr key Br Hf) as [<- ->]. split; [lia | reflexivity].
Qed.

(** After [Erase(key)] on a search tree, [Find] no longer reaches [key]. *)
Lemma FindNode_EraseNode_same key node sz :
  bst node -> FindNode key (fst (EraseNode key node sz)) = nullptr.
Proof.
  induction node as [|d l IHl r IHr]; simpl; [reflexivity|].
  intros (Hl & Hr & Bl & Br).
  key_cases key (fst d); auto. subst key.
  destruct (nonnull l && nonnull r) eqn:E; simpl.
  - destruct (MinNode r) as [|m ml mr] eqn:Hm; simpl.
    + rewrite key_ltb_irrefl. apply andb_prop in E as [_ Er].
      apply MinNode_nonnull in Er. rewrite Hm in Er. discriminate.
    + assert (Hdm : key_lt (fst d) (fst m))
        by exact (MinNode_all_keys _ _ _ _ _ Hr Hm).
      rewrite Hdm. now apply FindNode_above.
  - destruct (nonnull l); [now apply FindNode_above | now apply FindNode_below].
Qed.

(** [Erase(key')] on a search tree leaves what [Find] returns for any other
    key as it was. *)
Lemma FindNode_EraseNode_other key key' node sz :
  bst node -> key <> key' ->
  data_of (FindNode key (fst (EraseNode key' node sz))) = data_of (FindNode key node).
Proof.
  intros B Hne. revert key' Hne B.
  induction node as [|d l IHl r IHr]; intros key' Hne; simpl; [reflexivity|].
  intros (Hl & Hr & Bl & Br).
  key_cases key' (fst d).
  - key_cases key (fst d); auto.
  - subst key'. destruct (nonnull l && nonnull r) eqn:E; simpl.
    + apply andb_prop in E as [_ Er].
      pose proof (MinNode_nonnull r Er) as Hn.
      destruct (MinNode r) as [|m ml mr] eqn:Hm; [discriminate|]. simpl.
      assert (Hdm : key_lt (fst d) (fst m))
        by exact (MinNode_all_keys _ _ _ _ _ Hr Hm).
      key_cases key (fst d).
      * assert (Hkm : key_lt key (fst m)) by key_order. now rewrite Hkm.
      * contradiction.
      * key_cases key (fst m).
        -- rewrite FindNode_above by (eapply all_keys_lt_trans; eauto).
           destruct (FindNode key r) as [|x xl xr] eqn:Hx; [reflexivity|].
           exfalso.
           apply (FindNode_all_keys _ key r (MinNode_least _ _ _ _ Br Hm));
             [now rewrite Hx | exact Hcmp0].
        -- subst key. now rewrite (FindNode_MinNode _ _ _ _ Br Hm).
        -- apply IHr; [intros ->; key_order | exact Br].
    + key_cases key (fst d).
      * destruct l as [|dl ll lr]; simpl; [|reflexivity].
        rewrite FindNode_below; [reflexivity|].
        eapply all_keys_gt_trans; eauto.
      * contradiction.
      * destruct (nonnull l) eqn:El; [|reflexivity].
        destruct r; [|discriminate]. simpl.
        rewrite FindNode_above; [reflexivity|].
        eapply all_keys_lt_trans; eauto.
  - key_cases key (fst d); auto.
Qed.

End EraseFind.

(* ===================================================================== *)
(** ** The ordering invariant and the in-order traversal                 *)
(* ===================================================================== *)

Section Ordering.

Context {K V : Type} `{KT : KeyType K}.

Abbreviation NodePointer := (NodePointer K V).
Abbreviation BinarySearchTree := (BinarySearchTree K V).
Abbreviation Pair := (Pair K V).

Implicit Types (node l r : NodePointer) (d data m : Pair) (key k : K) (sz : Z).

Lemma keys_node d l r :
  keys (BinaryNode d l r) = keys l ++ fst d :: keys r.
Proof. unfold keys. simpl. now rewrite map_app. Qed.

(** The node-by-node invariant says exactly that the in-order traversal
    lists the keys in strictly increasing order. *)
Lemma bst_sorted node : bst node <-> StronglySorted key_lt (keys node).
Proof.
  induction node as [|d l IHl r IHr].
  - split; [constructor | exact (fun _ => I)].
  - rewrite keys_node, StronglySorted_app, StronglySorted_cons.
    simpl. rewrite !all_keys_Forall, IHl, IHr, !Forall_forall.
    split.
    + intros (Hl & Hr & Sl & Sr). repeat split; auto.
      intros x1 x2 H1 [->|H2]%elem_of_cons; [auto|].
      exact (key_lt_trans _ _ _ (Hl _ H1) (Hr _ H2)).
    + intros (Hx & Sl & Hr & Sr). repeat split; auto.
      intros x Hx1. apply Hx; [exact Hx1 | left].
Qed.

Lemma sorted_NoDup (ks : list K) : StronglySorted key_lt ks -> NoDup ks.
Proof.
  induction 1 as [|x ks Hs IH Hx]; constructor; auto.
  intros Hin. rewrite Forall_forall in Hx.
  exact (key_lt_irrefl x (Hx x Hin)).
Qed.

End Ordering.

(* ===================================================================== *)
(** ** The class invariant                                               *)
(* ===================================================================== *)

Lemma size_incr_mod (n : Z) :
  size_incr (n mod SIZE_MODULUS) = (n + 1) mod SIZE_MODULUS.
Proof.
  unfold size_incr, SIZE_MODULUS. now rewrite Zplus_mod_idemp_l.
Qed.

Lemma size_decr_mod (n : Z) :
  size_decr (n mod SIZE_MODULUS) = (n - 1) mod SIZE_MODULUS.
Proof.
  unfold size_decr, SIZE_MODULUS. now rewrite Zminus_mod_idemp_l.
Qed.

Lemma SIZE_MODULUS_pos : 0 < SIZE_MODULUS.
Proof. reflexivity. Qed.

Section Invariants.

Context {K V : Type} `{KT : KeyType K}.

Abbreviation NodePointer := (NodePointer K V).
Abbreviation BinarySearchTree := (BinarySearchTree K V).
Abbreviation Pair := (Pair K V).
Abbreviation Op := (Op K V).

Implicit Types (t : BinarySearchTree) (data : Pair) (key k : K).

Lemma Contains_false_FindNode key t :
  Contains key t = false <-> FindNode key (m_Root t) = nullptr.
Proof.
  unfold Contains. destruct (FindNode key (m_Root t)); simpl; split; congruence.
Qed.

Lemma Insert_present data t :
  Contains (fst data) t = true -> Insert data t = t.
Proof.
  unfold Contains, Insert. intros H. rewrite InsertNode_present by exact H.
  now destruct t.
Qed.

Lemma Erase_absent key t :
  Contains key t = false -> Erase key t = t.
Proof.
  rewrite Contains_false_FindNode. unfold Erase. intros H.
  rewrite EraseNode_absent by exact H. now destruct t.
Qed.

Lemma size_consistent_Insert data t :
  size_consistent t -> size_consistent (Insert data t).
Proof.
  unfold size_consistent, Insert. simpl. intros Hs.
  destruct (nonnull (FindNode (fst data) (m_Root t))) eqn:E.
  - now rewrite InsertNode_present.
  - destruct (InsertNode_absent data (m_Root t) (m_Size t)) as [-> ->].
    { destruct (FindNode (fst data) (m_Root t)); [reflexivity | discriminate]. }
    rewrite Hs, size_incr_mod. f_equal. lia.
Qed.

Lemma size_consistent_Erase key t :
  size_consistent t -> size_consistent (Erase key t).
Proof.
  unfold size_consistent, Erase. simpl. intros Hs.
  pose proof (EraseNode_size_step key (m_Root t) (m_Size t)) as H.
  set (p := EraseNode key (m_Root t) (m_Size t)) in *. clearbody p.
  destruct H as [[H1 H2]|[H1 H2]]; rewrite H2.
  - now rewrite H1.
  - rewrite Hs, size_decr_mod. f_equal. lia.
Qed.

Lemma tree_inv_Insert data t : tree_inv t -> tree_inv (Insert data t).
Proof.
  intros [B S]. split; [now apply bst_InsertNode | now apply size_consistent_Insert].
Qed.

Lemma tree_inv_Erase key t : tree_inv t -> tree_inv (Erase key t).
Proof.
  intros [B S]. split; [now apply bst_EraseNode | now apply size_consistent_Erase].
Qed.

Lemma tree_inv_empty : tree_inv (empty_tree : BinarySearchTree).
Proof. split; [exact I | reflexivity]. Qed.

Lemma tree_inv_init data : tree_inv (init_tree data).
Proof. split; [simpl; tauto | reflexivity]. Qed.

Lemma tree_inv_Clear t : tree_inv (Clear t).
Proof.
  unfold Clear. rewrite ClearNode_null. exact tree_inv_empty.
Qed.

Lemma tree_inv_copy t : tree_inv t -> tree_inv (copy_construct t).
Proof.
  unfold copy_construct. rewrite Copy_id. now destruct t.
Qed.

Lemma tree_inv_apply_op t (o : Op) : tree_inv t -> tree_inv (apply_op t o).
Proof. destruct o; [apply tree_inv_Insert | apply tree_inv_Erase]. Qed.

Lemma tree_inv_run (ops : list Op) t : tree_inv t -> tree_inv (run ops t).
Proof.
  revert t. induction ops as [|o ops IH]; intros t Ht; [exact Ht|].
  apply IH. now apply tree_inv_apply_op.
Qed.

Lemma tree_inv_run_bst (ops : list Op) t :
  bst (m_Root t) -> bst (m_Root (run ops t)).
Proof.
  revert t. induction ops as [|o ops IH]; intros t Ht; [exact Ht|].
  apply IH. destruct o; [now apply bst_InsertNode | now apply bst_EraseNode].
Qed.

Lemma run_returned_value (ops : list Op) t :
  returned_value t -> returned_value (run ops t).
Proof.
  revert t. induction ops as [|o ops IH]; intros t Ht; [exact Ht|].
  apply IH. destruct o; now constructor.
Qed.

Lemma returned_value_inv t : returned_value t -> tree_inv t.
Proof.
  induction 1;
    auto using tree_inv_empty, tree_inv_init, tree_inv_copy, tree_inv_Insert,
               tree_inv_Erase, tree_inv_Clear.
Qed.

(** The number of nodes after a run: one more per fresh insert, one fewer
    per erase of a present key. *)
Lemma count_nodes_run (ops : list Op) t :
  bst (m_Root t) ->
  Z.of_nat (count_nodes (m_Root (run ops t))) =
  Z.of_nat (count_nodes (m_Root t)) + Z.of_nat (fresh_inserts ops t)
    - Z.of_nat (present_erases ops t).
Proof.
  revert t. induction ops as [|o ops IH]; intros t B; [simpl; lia|].
  change (run (o :: ops) t) with (run ops (apply_op t o)).
  rewrite IH by (destruct o; [now apply bst_InsertNode | now apply bst_EraseNode]).
  cbn [fresh_inserts present_erases].
  destruct o as [data|key]; cbn [apply_op].
  - destruct (Contains (fst data) t) eqn:E.
    + rewrite Insert_present by exact E. lia.
    + apply Contains_false_FindNode in E.
      destruct (InsertNode_absent data (m_Root t) (m_Size t) E) as [Hc _].
      unfold Insert at 1. cbn [m_Root]. lia.
  - destruct (Contains key t) eqn:E.
    + destruct (EraseNode_present key (m_Root t) (m_Size t) B E) as [Hc _].
      unfold Erase at 1. cbn [m_Root]. lia.
    + rewrite Erase_absent by exact E. lia.
Qed.

End Invariants.

(* ===================================================================== *)
(** ** Membership and lookup                                             *)
(* ===================================================================== *)

Section Lookup.

Context {K V : Type} `{KT : KeyType K}.

Abbreviation NodePointer := (NodePointer K V).
Abbreviation BinarySearchTree := (BinarySearchTree K V).
Abbreviation Pair := (Pair K V).
Abbreviation Op := (Op K V).

Implicit Types (node l r : NodePointer) (t : BinarySearchTree) (d data : Pair) (key k : K).

Lemma all_keys_In (P : K -> Prop) node d :
  all_keys P node -> In d (inorder node) -> P (fst d).
Proof.
  induction node as [|d0 l IHl r IHr]; simpl; [contradiction|].
  intros (H0 & Hl & Hr). rewrite in_app_iff. simpl.
  intros [H|[<-|H]]; auto.
Qed.

(** In a search tree [Find] reaches every stored pair through its key. *)
Lemma FindNode_stored node d :
  bst node -> In d (inorder node) -> data_of (FindNode (fst d) node) = Some d.
Proof.
  induction node as [|d0 l IHl r IHr]; simpl; [contradiction|].
  intros (Hl & Hr & Bl & Br). rewrite in_app_iff. simpl.
  intros [H|[<-|H]].
  - pose proof (all_keys_In _ _ _ Hl H) as Hlt. simpl in Hlt.
    rewrite Hlt. auto.
  - now rewrite key_ltb_irrefl.
  - pose proof (all_keys_In _ _ _ Hr H) as Hlt. simpl in Hlt.
    rewrite (key_ltb_false_of_lt _ _ Hlt), Hlt. auto.
Qed.

Lemma In_keys node k :
  In k (keys node) <-> exists v, In (k, v) (inorder node).
Proof.
  unfold keys. rewrite in_map_iff. split.
  - intros ([k' v] & <- & H). now exists v.
  - intros [v H]. now exists (k, v).
Qed.

(** [Contains(key)] is true iff a node with that key exists. *)
Lemma Contains_In t key :
  bst (m_Root t) -> Contains key t = true <-> In key (keys (m_Root t)).
Proof.
  intros B. unfold Contains. split; [apply FindNode_In|].
  rewrite In_keys. intros [v H].
  pose proof (FindNode_stored _ _ B H) as E. simpl in E.
  now destruct (FindNode key (m_Root t)).
Qed.

Lemma Contains_Find key t :
  Contains key t = true <-> exists v, Find key t = Some v.
Proof.
  unfold Contains, Find. destruct (FindNode key (m_Root t)) as [|d l r]; simpl.
  - split; [discriminate | intros [v Hv]; discriminate].
  - split; eauto.
Qed.

Lemma Find_Insert_same data t :
  Contains (fst data) t = false -> Find (fst data) (Insert data t) = Some (snd data).
Proof.
  rewrite Contains_false_FindNode. intros H. unfold Find, Insert. cbn [m_Root].
  now rewrite FindNode_InsertNode_same.
Qed.

Lemma Find_Insert_other key data t :
  key <> fst data -> Find key (Insert data t) = Find key t.
Proof.
  intros H. unfold Find, Insert. cbn [m_Root].
  now rewrite FindNode_InsertNode_other.
Qed.

Lemma Find_Erase_other key key' t :
  bst (m_Root t) -> key <> key' -> Find key (Erase key' t) = Find key t.
Proof.
  intros B H. unfold Find, Erase. cbn [m_Root].
  now rewrite FindNode_EraseNode_other.
Qed.

Lemma Contains_Erase_same key t :
  bst (m_Root t) -> Contains key (Erase key t) = false.
Proof.
  intros B. unfold Contains, Erase. cbn [m_Root].
  now rewrite FindNode_EraseNode_same.
Qed.

(** [Contains] is determined by [Find]. *)
Lemma Contains_of_Find key t t' :
  Find key t = Find key t' -> Contains key t = Contains key t'.
Proof.
  unfold Contains, Find.
  destruct (FindNode key (m_Root t)), (FindNode key (m_Root t')); simpl;
    congruence.
Qed.

(** Calls on other keys keep what [Find] returns for [key]. *)
Lemma Find_run_other key (ops : list Op) t :
  bst (m_Root t) -> Forall (fun o => op_key o <> key) ops ->
  Find key (run ops t) = Find key t.
Proof.
  revert t. induction ops as [|o ops IH]; intros t B Hops; [reflexivity|].
  apply Forall_cons in Hops as [Ho Hops].
  change (run (o :: ops) t) with (run ops (apply_op t o)).
  rewrite IH; [|destruct o; [now apply bst_InsertNode | now apply bst_EraseNode]
               |exact Hops].
  destruct o as [data|key']; simpl in *.
  - apply Find_Insert_other. congruence.
  - apply Find_Erase_other; [exact B | congruence].
Qed.

End Lookup.

(* ===================================================================== *)
(** ** Erase at a position                                               *)
(* ===================================================================== *)

Section ErasePosition.

Context {K V : Type} `{KT : KeyType K}.

Abbreviation NodePointer := (NodePointer K V).
Abbreviation BinarySearchTree := (BinarySearchTree K V).
Abbreviation Pair := (Pair K V).

Implicit Types (node l r new old : NodePointer) (d data : Pair) (key k : K)
  (path : list Direction) (sz : Z).

Lemma all_keys_subtree_at (P : K -> Prop) path node d l r :
  all_keys P node -> subtree_at path node = BinaryNode d l r -> P (fst d).
Proof.
  revert node. induction path as [|s path IH]; intros node.
  - simpl. intros H ->. exact (proj1 H).
  - destruct node as [|d0 l0 r0]; [destruct s; discriminate|].
    intros (H0 & Hl & Hr). destruct s; simpl; eauto.
Qed.

Lemma bst_subtree_at path node d l r :
  bst node -> subtree_at path node = BinaryNode d l r -> bst (BinaryNode d l r).
Proof.
  revert node. induction path as [|s path IH]; intros node.
  - cbn [subtree_at]. now intros H <-.
  - destruct node as [|d0 l0 r0]; [destruct s; discriminate|].
    intros (Hl & Hr & Bl & Br). destruct s; cbn [subtree_at]; eauto.
Qed.

Lemma subtree_at_replace_at path new node d l r :
  subtree_at path node = BinaryNode d l r ->
  subtree_at path (replace_at path new node) = new.
Proof.
  revert node. induction path as [|s path IH]; intros node; [reflexivity|].
  destruct node as [|d0 l0 r0]; [destruct s; discriminate|].
  destruct s; simpl; eauto.
Qed.

(** Replacing the subtree at a position replaces its segment of the
    in-order traversal. *)
Lemma inorder_replace_at path new node d l r :
  subtree_at path node = BinaryNode d l r ->
  exists pre post,
    inorder node = pre ++ inorder (BinaryNode d l r) ++ post /\
    inorder (replace_at path new node) = pre ++ inorder new ++ post.
Proof.
  revert node. induction path as [|s path IH]; intros node.
  - simpl. intros ->. exists [], []. now rewrite !app_nil_r.
  - destruct node as [|d0 l0 r0]; [destruct s; discriminate|].
    destruct s; simpl; intros H; destruct (IH _ H) as (pre & post & E1 & E2).
    + exists pre, (post ++ d0 :: inorder r0).
      rewrite E1, E2. split; simpl; repeat (rewrite <- app_assoc; simpl); reflexivity.
    + exists (inorder l0 ++ d0 :: pre), post.
      rewrite E1, E2. split; simpl; repeat (rewrite <- app_assoc; simpl); reflexivity.
Qed.

(** In a search tree [Erase] descends to the position of the node that
    holds the key, and rewires that link only. *)
Lemma EraseNode_at path node d l r sz :
  bst node -> subtree_at path node = BinaryNode d l r ->
  EraseNode (fst d) node sz =
    (replace_at path (fst (EraseNode (fst d) (BinaryNode d l r) sz)) node,
     snd (EraseNode (fst d) (BinaryNode d l r) sz)).
Proof.
  revert node. induction path as [|s path IH]; intros node.
  - cbn [subtree_at replace_at]. intros _ ->.
    now destruct (EraseNode (fst d) (BinaryNode d l r) sz).
  - destruct node as [|d0 l0 r0]; [destruct s; discriminate|].
    intros (Hl & Hr & Bl & Br). destruct s; cbn [subtree_at replace_at]; intros H.
    + pose proof (all_keys_subtree_at _ _ _ _ _ _ Hl H) as Hlt. simpl in Hlt.
      cbn [EraseNode]. rewrite Hlt. now rewrite (IH _ Bl H).
    + pose proof (all_keys_subtree_at _ _ _ _ _ _ Hr H) as Hlt. simpl in Hlt.
      cbn [EraseNode]. rewrite (key_ltb_false_of_lt _ _ Hlt), Hlt.
      now rewrite (IH _ Br H).
Qed.

End ErasePosition.

(* ===================================================================== *)
(** ** LevelByLevel                                                      *)
(* ===================================================================== *)

Lemma append_assoc (s1 s2 s3 : string) : (s1 +:+ s2) +:+ s3 = s1 +:+ (s2 +:+ s3).
Proof.
  induction s1 as [|c s1 IH]; [reflexivity|].
  change (String c ((s1 +:+ s2) +:+ s3) = String c (s1 +:+ (s2 +:+ s3))).
  now rewrite IH.
Qed.

Lemma append_empty_l (s : string) : EmptyString +:+ s = s.
Proof. reflexivity. Qed.

Lemma append_empty_r (s : string) : s +:+ EmptyString = s.
Proof.
  induction s as [|c s IH]; [reflexivity|].
  change (String c (s +:+ EmptyString) = String c s). now rewrite IH.
Qed.

Section LevelProofs.

Context {K V : Type} (show : V -> string).

Abbreviation NodePointer := (NodePointer K V).
Abbreviation BinarySearchTree := (BinarySearchTree K V).

Implicit Types (node l r : NodePointer) (nodes cur nxt : list NodePointer)
  (out : string) (fuel depth h : nat).

Lemma render_line_text (vs : list V) :
  render_line show vs = line_text show vs +:+ newline.
Proof.
  induction vs as [|v vs IH]; [reflexivity|].
  simpl. now rewrite IH, !append_assoc.
Qed.

Lemma line_text_app (vs ws : list V) :
  line_text show (vs ++ ws) = line_text show vs +:+ line_text show ws.
Proof.
  induction vs as [|v vs IH]; [reflexivity|].
  simpl. now rewrite IH, !append_assoc.
Qed.

Lemma forest_values_S depth nodes :
  forest_values (S depth) nodes = forest_values depth (next_level nodes).
Proof.
  unfold forest_values, next_level.
  induction nodes as [|node nodes IH]; [reflexivity|].
  simpl. rewrite flat_map_app, <- IH. f_equal.
  destruct node as [|d l r]; [reflexivity|]. simpl.
  destruct l, r; simpl; now rewrite ?app_nil_r.
Qed.

Lemma all_nonnull_next_level nodes : all_nonnull (next_level nodes).
Proof.
  unfold all_nonnull, next_level. induction nodes as [|node nodes IH]; [constructor|].
  simpl. apply Forall_app. split; [|exact IH].
  destruct node as [|d l r]; [constructor|]. simpl.
  destruct l, r; repeat constructor.
Qed.

Lemma forest_height_app nodes1 nodes2 :
  forest_height (nodes1 ++ nodes2) =
  Nat.max (forest_height nodes1) (forest_height nodes2).
Proof.
  induction nodes1 as [|node nodes1 IH]; [reflexivity|].
  simpl. rewrite IH. lia.
Qed.

Lemma forest_count_app nodes1 nodes2 :
  forest_count (nodes1 ++ nodes2) = (forest_count nodes1 + forest_count nodes2)%nat.
Proof.
  induction nodes1 as [|node nodes1 IH]; [reflexivity|].
  simpl. rewrite IH. lia.
Qed.

Lemma forest_height_children d l r :
  forest_height (child_nodes (BinaryNode d l r)) = Nat.max (height l) (height r).
Proof. destruct l, r; simpl; lia. Qed.

Lemma forest_count_children d l r :
  forest_count (child_nodes (BinaryNode d l r)) = (count_nodes l + count_nodes r)%nat.
Proof. destruct l, r; simpl; lia. Qed.

Lemma forest_height_next nodes :
  all_nonnull nodes ->
  forest_height (next_level nodes) = Nat.pred (forest_height nodes).
Proof.
  induction 1 as [|node nodes Hn _ IH]; [reflexivity|].
  destruct node as [|d l r]; [discriminate|].
  change (next_level (BinaryNode d l r :: nodes))
    with (child_nodes (BinaryNode d l r) ++ next_level nodes).
  rewrite forest_height_app, forest_height_children, IH.
  cbn [forest_height fold_right height]. fold (forest_height nodes). lia.
Qed.

Lemma forest_count_next nodes :
  all_nonnull nodes ->
  forest_count nodes = (length nodes + forest_count (next_level nodes))%nat.
Proof.
  induction 1 as [|node nodes Hn _ IH]; [reflexivity|].
  destruct node as [|d l r]; [discriminate|].
  change (next_level (BinaryNode d l r :: nodes))
    with (child_nodes (BinaryNode d l r) ++ next_level nodes).
  rewrite forest_count_app, forest_count_children.
  cbn [forest_count fold_right count_nodes length].
  fold (forest_count nodes). lia.
Qed.

Lemma forest_height_pos nodes :
  all_nonnull nodes -> nodes <> [] -> (0 < forest_height nodes)%nat.
Proof.
  intros [|node nodes' Hn _] Hne; [contradiction|].
  destruct node; [discriminate|]. simpl. lia.
Qed.

End LevelProofs.

Section LevelLoop.

Context {K V : Type} (show : V -> string).

Abbreviation NodePointer := (NodePointer K V).
Abbreviation BinarySearchTree := (BinarySearchTree K V).

Implicit Types (node l r : NodePointer) (nodes cur nxt : list NodePointer)
  (out : string) (fuel depth h : nat).

(** The queue after the iteration that dequeues a node. *)
Lemma body_node d l r (q : list NodePointer) out :
  LevelByLevel_body show (BinaryNode d l r :: q) out =
  Continue (q ++ child_nodes (BinaryNode d l r)) (out +:+ show (snd d) +:+ space).
Proof.
  simpl. f_equal. destruct l, r; simpl; rewrite <- ?app_assoc, ?app_nil_r; reflexivity.
Qed.

(** The iterations that dequeue the nodes [cur] of the current level: their
    values are written in order and their children queued behind [nxt]. *)
Lemma loop_row cur : forall nxt out fuel,
  all_nonnull cur ->
  LevelByLevel_loop show (length cur + fuel) (cur ++ nullptr :: nxt) out =
  LevelByLevel_loop show fuel (nullptr :: nxt ++ next_level cur)
    (out +:+ line_text show (forest_values 0 cur)).
Proof.
  induction cur as [|node cur IH]; intros nxt out fuel Hn.
  - simpl. now rewrite app_nil_r, append_empty_r.
  - inversion Hn as [|? ? Hnode Hcur]; subst.
    destruct node as [|d l r]; [discriminate|].
    change (length (BinaryNode d l r :: cur) + fuel)%nat
      with (S (length cur + fuel)).
    change ((BinaryNode d l r :: cur) ++ nullptr :: nxt)
      with (BinaryNode d l r :: (cur ++ nullptr :: nxt)).
    cbn [LevelByLevel_loop]. rewrite body_node.
    rewrite <- app_assoc. cbn [app]. rewrite (IH _ _ _ Hcur).
    change (next_level (BinaryNode d l r :: cur))
      with (child_nodes (BinaryNode d l r) ++ next_level cur).
    rewrite <- app_assoc. f_equal.
    change (forest_values 0 (BinaryNode d l r :: cur))
      with (snd d :: forest_values 0 cur).
    cbn [line_text fold_right]. fold (line_text show (forest_values 0 cur)).
    now rewrite !append_assoc.
Qed.

(** From the start of a level to the [break]: one line per remaining
    depth. *)
Lemma loop_levels h : forall nodes out fuel,
  all_nonnull nodes -> nodes <> [] ->
  forest_height nodes = h ->
  (forest_count nodes + h <= fuel)%nat ->
  LevelByLevel_loop show fuel (nodes ++ [nullptr]) out =
  Some (out +:+ render show (map (fun depth => forest_values depth nodes) (seq 0 h))).
Proof.
  induction h as [|h IH]; intros nodes out fuel Hn Hne Hh Hfuel.
  - pose proof (forest_height_pos nodes Hn Hne). lia.
  - pose proof (forest_count_next nodes Hn) as Hc.
    assert (Hlen : (0 < length nodes)%nat)
      by (destruct nodes; [contradiction | simpl; lia]).
    replace fuel with (length nodes + S (fuel - length nodes - 1))%nat by lia.
    rewrite (loop_row nodes [] _ _ Hn). cbn [app].
    cbn [LevelByLevel_loop LevelByLevel_body].
    pose proof (forest_height_next nodes Hn) as Hnext. rewrite Hh in Hnext.
    cbn [Nat.pred] in Hnext.
    cbn [seq map]. rewrite <- seq_shift, map_map. cbn [render fold_right].
    fold (render show (map (fun depth => forest_values (S depth) nodes) (seq 0 h))).
    rewrite (map_ext _ (fun depth => forest_values depth (next_level nodes)))
      by (intros depth; apply forest_values_S).
    rewrite render_line_text.
    destruct (next_level nodes) as [|node' nodes'] eqn:E.
    + simpl in Hnext. subst h. simpl. now rewrite append_empty_r, append_assoc.
    + change (node' :: nodes' ++ [DELIMETER]) with ((node' :: nodes') ++ [nullptr]).
      rewrite <- E in *.
      rewrite (IH (next_level nodes)); [
        | apply all_nonnull_next_level
        | rewrite E; discriminate
        | exact Hnext
        | lia ].
      now rewrite !append_assoc.
Qed.

(** [LevelByLevel] with enough iterations writes the values level by
    level. *)
Lemma LevelByLevel_levels fuel (t : BinarySearchTree) :
  (count_nodes (m_Root t) + height (m_Root t) <= fuel)%nat ->
  LevelByLevel show fuel t = Some (render show (levels (m_Root t))).
Proof.
  unfold LevelByLevel, levels. intros Hfuel.
  destruct (m_Root t) as [|d l r] eqn:E; [reflexivity|].
  cbn [nonnull].
  change [BinaryNode d l r; DELIMETER] with ([BinaryNode d l r] ++ [nullptr]).
  rewrite (loop_levels (height (BinaryNode d l r))).
  - f_equal. rewrite append_empty_l. f_equal. apply map_ext. intros depth.
    unfold forest_values. simpl. now rewrite app_nil_r.
  - repeat constructor.
  - discriminate.
  - simpl. lia.
  - simpl in *. lia.
Qed.

End LevelLoop.

(* ===================================================================== *)
(** ** Moves between objects                                             *)
(* ===================================================================== *)

Section Moves.

Context {K V : Type}.

Abbreviation BinarySearchTree := (BinarySearchTree K V).
Abbreviation Store := (gmap nat BinarySearchTree).

Implicit Types (σ : Store) (A B : BinarySearchTree).

Lemma lookup_set_Root σ a c root :
  set_Root a root σ !! c =
  if decide (a = c) then (fun t => mkTree root (m_Size t)) <$> σ !! a else σ !! c.
Proof. unfold set_Root. apply lookup_alter. Qed.

Lemma lookup_set_Size σ a c size :
  set_Size a size σ !! c =
  if decide (a = c) then (fun t => mkTree (m_Root t) size) <$> σ !! a else σ !! c.
Proof. unfold set_Size. apply lookup_alter. Qed.

(** The members of the moved-from object, one write after the other. *)
Lemma moved_from_lookup σ a c :
  set_Size a 0 (set_Root a nullptr σ) !! c =
  if decide (a = c) then (fun _ => empty_tree) <$> σ !! a else σ !! c.
Proof.
  rewrite lookup_set_Size, !lookup_set_Root.
  destruct (decide (a = c)) as [->|Hne].
  - rewrite decide_True by reflexivity. now destruct (σ !! c).
  - reflexivity.
Qed.

Lemma move_assign_distinct σ a b A B :
  σ !! a = Some A -> σ !! b = Some B -> a <> b ->
  move_assign b a σ = Some (<[a := empty_tree]> (<[b := A]> σ)).
Proof.
  intros Ha Hb Hne. unfold move_assign.
  rewrite Ha, Hb. cbn [mbind option_bind].
  rewrite decide_False by congruence.
  rewrite lookup_alter_ne, Ha by congruence. cbn [mbind option_bind].
  rewrite lookup_set_Root, decide_False by congruence.
  rewrite lookup_alter_ne, Ha by congruence. cbn [mbind option_bind].
  f_equal. apply map_eq. intros c.
  rewrite moved_from_lookup, !lookup_insert.
  repeat (rewrite ?lookup_set_Size, ?lookup_set_Root, ?lookup_alter;
          repeat case_decide; subst; try congruence).
  all: rewrite ?Ha, ?Hb; simpl; try reflexivity; now destruct A.
Qed.

Lemma move_assign_self σ a A :
  σ !! a = Some A -> move_assign a a σ = Some σ.
Proof.
  intros Ha. unfold move_assign. rewrite Ha. cbn [mbind option_bind].
  now rewrite decide_True.
Qed.

Lemma move_construct_fresh σ a b A :
  σ !! a = Some A -> σ !! b = None ->
  move_construct b a σ = Some (<[a := empty_tree]> (<[b := A]> σ)).
Proof.
  intros Ha Hb. unfold move_construct. rewrite Hb, Ha. cbn [mbind option_bind].
  assert (Hne : a <> b) by congruence.
  f_equal. apply map_eq. intros c.
  rewrite moved_from_lookup, !lookup_insert.
  repeat case_decide; subst; try congruence; rewrite ?Ha, ?Hb; simpl;
    try reflexivity; now destruct A.
Qed.

End Moves.

(* ===================================================================== *)
(** ** Allocation failure                                                *)
(* ===================================================================== *)

Section AllocationFacts.

Context {K V : Type} `{KT : KeyType K}.

Abbreviation NodePointer := (NodePointer K V).
Abbreviation BinarySearchTree := (BinarySearchTree K V).
Abbreviation Pair := (Pair K V).
Abbreviation Store := (gmap nat BinarySearchTree).

Implicit Types (node l r : NodePointer) (σ : Store) (A B t : BinarySearchTree)
  (avail : nat) (data : Pair) (sz : Z).

(** [Copy] succeeds exactly when the free store has a node for each node of
    the source. *)
Lemma Copy_alloc_enough node : forall avail,
  (count_nodes node <= avail)%nat ->
  Copy_alloc node avail = Some (node, (avail - count_nodes node)%nat).
Proof.
  induction node as [|d l IHl r IHr]; intros avail H; simpl.
  - do 2 f_equal. lia.
  - simpl in H. destruct avail as [|avail]; [lia|].
    rewrite IHl by lia. cbn [mbind option_bind].
    rewrite IHr by lia. cbn [mbind option_bind].
    do 2 f_equal. lia.
Qed.

Lemma Copy_alloc_short node : forall avail,
  (avail < count_nodes node)%nat -> Copy_alloc node avail = None.
Proof.
  induction node as [|d l IHl r IHr]; intros avail H; simpl in *; [lia|].
  destruct avail as [|avail]; [reflexivity|].
  destruct (le_lt_dec (count_nodes l) avail) as [Hl|Hl].
  - rewrite Copy_alloc_enough by exact Hl. cbn [mbind option_bind].
    rewrite IHr by lia. reflexivity.
  - rewrite IHl by exact Hl. reflexivity.
Qed.

(** Copy assignment between distinct objects: it returns with [this] a copy
    of [other], or the exception leaves [this] cleared. *)
Lemma copy_assign_distinct σ this other A B avail :
  σ !! this = Some B -> σ !! other = Some A -> this <> other ->
  copy_assign this other avail σ =
  Some (if decide (count_nodes (m_Root A) <= avail)%nat
        then Returned (<[this := A]> σ)
        else BadAlloc (<[this := empty_tree]> σ)).
Proof.
  intros Hb Ha Hne. unfold copy_assign.
  rewrite Hb, Ha. cbn [mbind option_bind].
  rewrite decide_False by exact Hne.
  rewrite lookup_alter_ne, Ha by exact Hne. cbn [mbind option_bind].
  destruct (decide (count_nodes (m_Root A) <= avail)%nat) as [Hle|Hgt].
  - rewrite Copy_alloc_enough by exact Hle.
    rewrite lookup_set_Root, decide_False by exact Hne.
    rewrite lookup_alter_ne, Ha by exact Hne. cbn [mbind option_bind].
    do 2 f_equal. apply map_eq. intros c.
    rewrite lookup_insert.
    repeat (rewrite ?lookup_set_Size, ?lookup_set_Root, ?lookup_alter;
            repeat case_decide; subst; try congruence).
    rewrite Hb. simpl. now destruct A.
  - rewrite Copy_alloc_short by lia.
    do 2 f_equal. apply map_eq. intros c.
    rewrite lookup_alter, lookup_insert.
    repeat case_decide; subst; try congruence.
    rewrite Hb. simpl. unfold Clear. now rewrite ClearNode_null.
Qed.

(** [Insert] with a fallible [new]: when it returns it has done what
    [InsertNode] does; when it throws, the key was absent, no link of the
    tree has changed and [m_Size] has already been incremented. *)
Lemma InsertNode_alloc_spec data node sz avail :
  match InsertNode_alloc data node sz avail with
  | Returned p => p = InsertNode data node sz
  | BadAlloc p =>
      p = (node, size_incr sz) /\ avail = 0%nat /\
      FindNode (fst data) node = nullptr
  end.
Proof.
  induction node as [|d l IHl r IHr]; simpl.
  - destruct avail; auto.
  - key_cases (fst data) (fst d).
    + destruct (InsertNode_alloc data l sz avail) as [p|p].
      * now subst p.
      * destruct IHl as (-> & -> & Hf). auto.
    + reflexivity.
    + destruct (InsertNode_alloc data r sz avail) as [p|p].
      * now subst p.
      * destruct IHr as (-> & -> & Hf). auto.
Qed.

Lemma Insert_alloc_spec data avail t :
  match Insert_alloc data avail t with
  | Returned t' => t' = Insert data t
  | BadAlloc t' =>
      m_Root t' = m_Root t /\ m_Size t' = size_incr (m_Size t) /\
      avail = 0%nat /\ Contains (fst data) t = false
  end.
Proof.
  unfold Insert_alloc, Insert, Contains.
  pose proof (InsertNode_alloc_spec data (m_Root t) (m_Size t) avail) as H.
  destruct (InsertNode_alloc data (m_Root t) (m_Size t) avail) as [p|p].
  - now subst p.
  - destruct H as (-> & -> & ->). auto.
Qed.

(** Moves and copy assignments keep the values of all objects values that
    returning calls produce. *)
Lemma store_returned_insert σ a t :
  store_returned σ -> returned_value t -> store_returned (<[a := t]> σ).
Proof.
  intros Hσ Ht c t'. rewrite lookup_insert. case_decide.
  - now intros [= <-].
  - apply Hσ.
Qed.

Lemma store_returned_move_assign σ σ' this other :
  store_returned σ -> move_assign this other σ = Some σ' -> store_returned σ'.
Proof.
  intros Hσ. destruct (σ !! this) as [B|] eqn:Hb; [|unfold move_assign; now rewrite Hb].
  destruct (σ !! other) as [A|] eqn:Ha;
    [|unfold move_assign; rewrite Hb; simpl; now rewrite Ha].
  destruct (decide (this = other)) as [->|Hne].
  - rewrite (move_assign_self σ other A Ha). now intros [= <-].
  - rewrite (move_assign_distinct σ other this A B Ha Hb) by congruence.
    intros [= <-]. eauto using store_returned_insert, returned_default.
Qed.

Lemma store_returned_move_construct σ σ' this other :
  store_returned σ -> move_construct this other σ = Some σ' -> store_returned σ'.
Proof.
  intros Hσ. destruct (σ !! this) as [B|] eqn:Hb; [unfold move_construct; now rewrite Hb|].
  destruct (σ !! other) as [A|] eqn:Ha;
    [|unfold move_construct; rewrite Hb; simpl; now rewrite Ha].
  rewrite (move_construct_fresh σ other this A Ha Hb).
  intros [= <-]. eauto using store_returned_insert, returned_default.
Qed.

Lemma store_returned_copy_assign σ σ' this other avail :
  store_returned σ ->
  copy_assign this other avail σ = Some (Returned σ') \/
  copy_assign this other avail σ = Some (BadAlloc σ') ->
  store_returned σ'.
Proof.
  intros Hσ. destruct (σ !! this) as [B|] eqn:Hb;
    [|unfold copy_assign; rewrite Hb; intros [H|H]; discriminate].
  destruct (σ !! other) as [A|] eqn:Ha;
    [|unfold copy_assign; rewrite Hb; simpl; rewrite Ha; intros [H|H]; discriminate].
  destruct (decide (this = other)) as [->|Hne].
  - unfold copy_assign. rewrite Ha. simpl. rewrite decide_True by reflexivity.
    intros [[= <-]|[=]]. exact Hσ.
  - rewrite (copy_assign_distinct σ this other A B avail Hb Ha Hne).
    destruct (decide (count_nodes (m_Root A) <= avail)%nat).
    + intros [[= <-]|[=]]. eauto using store_returned_insert.
    + intros [[=]|[= <-]]. eauto using store_returned_insert, returned_default.
Qed.


(** What returning calls produce is a value an object can take. *)
Lemma reach_Insert data t : reachable t -> reachable (Insert data t).
Proof.
  intros R. apply (reach_insert data 1 t); [exact R|].
  pose proof (Insert_alloc_spec data 1 t) as H.
  destruct (Insert_alloc data 1 t) as [t'|t'].
  - now subst t'.
  - destruct H as (_ & _ & H & _). discriminate.
Qed.

Lemma returned_value_reachable t : returned_value t -> reachable t.
Proof.
  induction 1; eauto using reach_default, reach_init, reach_copy, reach_Insert,
                           reach_erase, reach_clear.
Qed.

Lemma run_reachable (ops : list (Op K V)) t : reachable t -> reachable (run ops t).
Proof.
  revert t. induction ops as [|o ops IH]; intros t Ht; [exact Ht|].
  apply IH. destruct o; [now apply reach_Insert | now apply reach_erase].
Qed.

(** Every value an object can take is a search tree, also after a failed
    [Insert]. *)
Lemma reachable_bst t : reachable t -> bst (m_Root t).
Proof.
  induction 1 as [|data|t R IH|data avail t t' R IH E|data avail t t' R IH E
                  |key t R IH|t R IH].
  - exact I.
  - simpl. tauto.
  - unfold copy_construct. cbn [m_Root]. now rewrite Copy_id.
  - pose proof (Insert_alloc_spec data avail t) as H. rewrite E in H. subst t'.
    now apply bst_InsertNode.
  - pose proof (Insert_alloc_spec data avail t) as H. rewrite E in H.
    destruct H as (-> & _). exact IH.
  - now apply bst_EraseNode.
  - unfold Clear. cbn [m_Root]. now rewrite ClearNode_null.
Qed.

End AllocationFacts.

(* ===================================================================== *)
(** ** The specification                                                 *)
(* ===================================================================== *)

Section Specification.

Context {K V : Type} `{KT : KeyType K}.

Abbreviation NodePointer := (NodePointer K V).
Abbreviation BinarySearchTree := (BinarySearchTree K V).
Abbreviation Pair := (Pair K V).
Abbreviation Op := (Op K V).

(** C1 (ordering invariant).  For every tree reached from the empty tree by
    a sequence of [Insert] and [Erase] calls, the in-order traversal lists
    the keys in strictly increasing order; the tree satisfies the
    node-by-node invariant [bst] (left keys smaller, right keys greater),
    which is equivalent to the sortedness of the traversal on every tree;
    and no key occurs twice.  The traversal is sorted as well for every
    value that the constructors, [Insert] (also when [new] throws in it),
    [Erase], [Clear] and copies produce. *)
Theorem ordering_invariant (ops : list Op) :
  StronglySorted key_lt (keys (m_Root (run ops empty_tree))) /\
  bst (m_Root (run ops empty_tree)) /\
  NoDup (keys (m_Root (run ops empty_tree))) /\
  (forall node : NodePointer, bst node <-> StronglySorted key_lt (keys node)) /\
  (forall t : BinarySearchTree,
     reachable t -> StronglySorted key_lt (keys (m_Root t))).
Proof.
  assert (B : bst (m_Root (run ops (empty_tree : BinarySearchTree)))).
  { apply (tree_inv_run ops empty_tree tree_inv_empty). }
  pose proof (proj1 (bst_sorted _) B) as S.
  split; [exact S|]. split; [exact B|]. split; [now apply sorted_NoDup|].
  split; [intros node; apply bst_sorted|].
  intros t R. apply bst_sorted. now apply reachable_bst.
Qed.

(** C4 (duplicate insert).  If a node with key [k] and value [v] is in the
    tree, [Insert((k, v'))] changes nothing: the tree (shape and [m_Size])
    is the same object value, and [Find(k)] still returns [v]. *)
Theorem duplicate_insert_noop (t : BinarySearchTree) (k : K) (v v' : V) :
  bst (m_Root t) ->
  In (k, v) (inorder (m_Root t)) ->
  Insert (k, v') t = t /\
  m_Root (Insert (k, v') t) = m_Root t /\
  Size (Insert (k, v') t) = Size t /\
  Find k (Insert (k, v') t) = Some v.
Proof.
  intros B Hin.
  pose proof (FindNode_stored _ _ B Hin) as Hf. simpl in Hf.
  assert (E : Insert (k, v') t = t).
  { apply Insert_present. unfold Contains. simpl.
    now destruct (FindNode k (m_Root t)). }
  rewrite E. repeat split. unfold Find. now rewrite Hf.
Qed.

(** C5 (round trip).  After [Insert((k, v))] of a key that was absent,
    [Contains(k)] is true and [Find(k)] returns [v]; this stays so after any
    further calls of [Insert] and [Erase] on other keys; and after
    [Erase(k)], [Contains(k)] is false. *)
Theorem insert_find_round_trip
    (t : BinarySearchTree) (k : K) (v : V) (ops : list Op) :
  bst (m_Root t) ->
  ~ In k (keys (m_Root t)) ->
  Forall (fun o => op_key o <> k) ops ->
  Contains k (Insert (k, v) t) = true /\
  Find k (Insert (k, v) t) = Some v /\
  Contains k (run ops (Insert (k, v) t)) = true /\
  Find k (run ops (Insert (k, v) t)) = Some v /\
  Contains k (Erase k (run ops (Insert (k, v) t))) = false.
Proof.
  intros B Hk Hops.
  assert (Hc : Contains k t = false).
  { destruct (Contains k t) eqn:E; [|reflexivity].
    destruct Hk. now apply FindNode_In. }
  assert (B1 : bst (m_Root (Insert (k, v) t))) by now apply bst_InsertNode.
  assert (F1 : Find k (Insert (k, v) t) = Some v)
    by exact (Find_Insert_same (k, v) t Hc).
  assert (F2 : Find k (run ops (Insert (k, v) t)) = Some v)
    by now rewrite Find_run_other.
  repeat split; auto.
  - apply Contains_Find. eauto.
  - apply Contains_Find. eauto.
  - apply Contains_Erase_same. now apply tree_inv_run_bst.
Qed.

(** C2 (two-child erase).  In a search tree, let the node at [path] hold
    key [k] and have two children [l] and [r].  [Erase(k)] overwrites that
    node's pair with the pair [succ] of [Min(r)], the in-order successor,
    and erases [succ]'s key from [r]; nothing else is rewired.  The erased
    right subtree is [r] without its first in-order pair [succ]; the
    ordering invariant still holds; [succ] occupies the position of [k]; in
    the in-order traversal [succ] came right after the pair of [k], and the
    new traversal is the old one with the pair of [k] taken out; and exactly
    one node is gone: the node count and [Size()] drop by one. *)
Theorem erase_two_children
    (t : BinarySearchTree) (path : list Direction)
    (k : K) (v : V) (l r : NodePointer) :
  bst (m_Root t) ->
  subtree_at path (m_Root t) = BinaryNode (k, v) l r ->
  nonnull l = true -> nonnull r = true ->
  exists (succ : Pair) (sr r' : NodePointer),
    r' = fst (EraseNode (fst succ) r (m_Size t)) /\
    MinNode r = BinaryNode succ nullptr sr /\
    m_Root (Erase k t) = replace_at path (BinaryNode succ l r') (m_Root t) /\
    inorder r = succ :: inorder r' /\
    bst (m_Root (Erase k t)) /\
    subtree_at path (m_Root (Erase k t)) = BinaryNode succ l r' /\
    (exists pre post,
        inorder (m_Root t) = pre ++ (k, v) :: succ :: post /\
        inorder (m_Root (Erase k t)) = pre ++ succ :: post) /\
    count_nodes (m_Root t) = S (count_nodes (m_Root (Erase k t))) /\
    Size (Erase k t) = (Size t - 1) mod SIZE_MODULUS /\
    (size_consistent t ->
     Z.of_nat (count_nodes (m_Root t)) < SIZE_MODULUS ->
     Size (Erase k t) = Size t - 1).
Proof.
  intros B Hsub Hl Hr.
  destruct (EraseNode_two_children (k, v) l r (m_Size t) Hl Hr)
    as (succ & sr & Hm & He).
  pose proof (EraseNode_at path _ _ _ _ (m_Size t) B Hsub) as Hat.
  rewrite He in Hat. cbn [fst snd] in Hat.
  destruct (bst_subtree_at _ _ _ _ _ B Hsub) as (_ & _ & _ & Br).
  destruct (EraseNode_MinNode r succ nullptr sr (m_Size t) Br Hm)
    as (Hin & Hsz & _).
  assert (Hroot : m_Root (Erase k t) =
                  replace_at path
                    (BinaryNode succ l (fst (EraseNode (fst succ) r (m_Size t))))
                    (m_Root t)).
  { unfold Erase. cbn [m_Root]. now rewrite Hat. }
  assert (Hsize : Size (Erase k t) = size_decr (Size t)).
  { unfold Erase, Size. cbn [m_Size]. now rewrite Hat. }
  assert (Hlist : exists pre post,
             inorder (m_Root t) = pre ++ (k, v) :: succ :: post /\
             inorder (m_Root (Erase k t)) = pre ++ succ :: post).
  { destruct (inorder_replace_at path
                (BinaryNode succ l (fst (EraseNode (fst succ) r (m_Size t))))
                _ _ _ _ Hsub) as (pre & post & E1 & E2).
    exists (pre ++ inorder l),
           (inorder (fst (EraseNode (fst succ) r (m_Size t))) ++ post).
    rewrite Hroot, E1, E2. cbn [inorder]. rewrite Hin.
    split; repeat (rewrite <- app_assoc; simpl); reflexivity. }
  assert (Hcount : count_nodes (m_Root t) = S (count_nodes (m_Root (Erase k t)))).
  { destruct Hlist as (pre & post & E1 & E2).
    rewrite !count_nodes_inorder, E1, E2, !length_app. simpl. lia. }
  exists succ, sr, (fst (EraseNode (fst succ) r (m_Size t))).
  split; [reflexivity|]. split; [exact Hm|]. split; [exact Hroot|]. split; [exact Hin|].
  split; [now apply bst_EraseNode|].
  split; [rewrite Hroot; eapply subtree_at_replace_at; eauto|].
  split; [exact Hlist|]. split; [exact Hcount|]. split; [exact Hsize|].
  intros S Hlt. rewrite Hsize. unfold Size, size_decr. rewrite S.
  rewrite (Z.mod_small (Z.of_nat _)) by lia.
  apply Z.mod_small. lia.
Qed.

(** C6 (erase frame).  On a search tree, [Erase(k)] changes neither the
    presence nor the value of any other key; and when no node holds [k] it
    changes nothing at all: same shape, same contents, same [m_Size]. *)
Theorem erase_frame (t : BinarySearchTree) (k : K) :
  bst (m_Root t) ->
  (forall k', k' <> k ->
     Contains k' (Erase k t) = Contains k' t /\
     Find k' (Erase k t) = Find k' t) /\
  (~ In k (keys (m_Root t)) -> Erase k t = t).
Proof.
  intros B. split.
  - intros k' Hne.
    pose proof (Find_Erase_other k' k t B Hne) as F.
    split; [now apply Contains_of_Find | exact F].
  - intros Hk. apply Erase_absent.
    destruct (Contains k t) eqn:E; [|reflexivity].
    destruct Hk. now apply FindNode_In.
Qed.

(** C10 ([Contains] is total).  [Contains(k)] is a boolean on every tree:
    it is [false] on the empty tree and whenever no node holds [k].  [Find]
    on such a key, and [Root], [Min] and [Max] on the empty tree, dereference
    a null pointer instead ([None]). *)
Theorem contains_total (t : BinarySearchTree) (k : K) :
  ~ In k (keys (m_Root t)) ->
  Contains k t = false /\
  Contains k (empty_tree : BinarySearchTree) = false /\
  Find k t = None /\
  Find k (empty_tree : BinarySearchTree) = None /\
  Root (empty_tree : BinarySearchTree) = None /\
  Min (empty_tree : BinarySearchTree) = None /\
  Max (empty_tree : BinarySearchTree) = None.
Proof.
  intros Hk.
  assert (E : FindNode k (m_Root t) = nullptr).
  { destruct (FindNode k (m_Root t)) eqn:E; [reflexivity|].
    destruct Hk. apply FindNode_In. now rewrite E. }
  unfold Contains, Find. rewrite E. repeat split.
Qed.

(** C7 (move transfer).  Let the object at address [a] hold the tree [A].
    Move assignment to a distinct object [b], and move construction of a new
    object [b], leave [b] with exactly [A] (contents and size) and [a] with
    the empty tree (no root, [Size() == 0], [Empty()]); no other object
    changes.  Move assignment of an object to itself changes nothing. *)
Theorem move_transfer
    (σ : gmap nat BinarySearchTree) (a b : nat) (A : BinarySearchTree) :
  σ !! a = Some A ->
  (forall B, σ !! b = Some B -> a <> b ->
     exists σ', move_assign b a σ = Some σ' /\
       σ' !! b = Some A /\ σ' !! a = Some empty_tree /\
       (forall c, c <> a -> c <> b -> σ' !! c = σ !! c)) /\
  (σ !! b = None ->
     exists σ', move_construct b a σ = Some σ' /\
       σ' !! b = Some A /\ σ' !! a = Some empty_tree /\
       (forall c, c <> a -> c <> b -> σ' !! c = σ !! c)) /\
  (m_Root (empty_tree : BinarySearchTree) = nullptr /\
   Size (empty_tree : BinarySearchTree) = 0 /\
   Empty (empty_tree : BinarySearchTree) = true) /\
  move_assign a a σ = Some σ.
Proof.
  intros Ha. split; [|split; [|split]].
  - intros B Hb Hne. eexists. split; [now apply (move_assign_distinct σ a b A B)|].
    split; [|split].
    + rewrite lookup_insert_ne by exact Hne. apply lookup_insert_eq.
    + apply lookup_insert_eq.
    + intros c Hca Hcb. now rewrite !lookup_insert_ne by congruence.
  - intros Hb. assert (Hne : a <> b) by congruence.
    eexists. split; [now apply (move_construct_fresh σ a b A)|].
    split; [|split].
    + rewrite lookup_insert_ne by exact Hne. apply lookup_insert_eq.
    + apply lookup_insert_eq.
    + intros c Hca Hcb. now rewrite !lookup_insert_ne by congruence.
  - repeat split.
  - now apply (move_assign_self σ a A).
Qed.

(** C8 ([LevelByLevel]).  Given enough iterations (one per node and one per
    level), [LevelByLevel] writes the stored values in breadth-first order:
    one line per depth, shallow to deep, the values of a depth left to
    right, each followed by a single space, each line ended by a line break.
    A dequeued node queues its left child before its right child.  On an
    empty tree nothing is written.  For the tree built by inserting the keys
    5, 3, 8, 1, 4, 7, 9 the lines are: the value of 5; those of 3 and 8;
    those of 1, 4, 7 and 9. *)
Theorem level_by_level_output
    (show : V -> string) (t : BinarySearchTree) (fuel : nat) (val : Z -> V) :
  (count_nodes (m_Root t) + height (m_Root t) <= fuel)%nat ->
  LevelByLevel show fuel t = Some (render show (levels (m_Root t))) /\
  (forall d (l r : NodePointer) q out,
     LevelByLevel_body show (BinaryNode d l r :: q) out =
     Continue
       (q ++ (if nonnull l then [l] else []) ++ (if nonnull r then [r] else []))
       (out +:+ show (snd d) +:+ space)) /\
  (forall n, LevelByLevel show n (empty_tree : BinarySearchTree) = Some EmptyString) /\
  levels (m_Root (scenario_tree val)) =
    [[val 5]; [val 3; val 8]; [val 1; val 4; val 7; val 9]] /\
  ((10 <= fuel)%nat ->
   LevelByLevel show fuel (scenario_tree val) =
   Some (render show [[val 5]; [val 3; val 8]; [val 1; val 4; val 7; val 9]])).
Proof.
  intros Hfuel. split; [now apply LevelByLevel_levels|].
  split; [intros; apply body_node|].
  split; [reflexivity|].
  split; [reflexivity|].
  intros H10. now rewrite LevelByLevel_levels by (simpl; lia).
Qed.


End Specification.

(* ===================================================================== *)
(** ** The theorems at concrete trees                                    *)
(* ===================================================================== *)

(** C3 (size invariant), where the code departs from it.  [Insert] runs
    [++m_Size] before [new BinaryNode(data)].  When that [new] throws in
    [Insert((1, 10))] on the empty tree, the object is left without a node
    and with [Size() == 1]: a value the object can take, on which [Size()]
    is not the number of nodes (nor the length of the in-order traversal).
    The miscount stays: after a further [Insert((2, 20))] that returns, the
    tree has one node and [Size() == 2]. *)
Theorem failed_Insert_breaks_size_invariant :
  Insert_alloc (1, 10) 0 (empty_tree : BinarySearchTree Z Z)
    = BadAlloc miscounted_tree /\
  reachable miscounted_tree /\
  Size miscounted_tree = 1 /\
  count_nodes (m_Root miscounted_tree) = 0%nat /\
  length (inorder (m_Root miscounted_tree)) = 0%nat /\
  ~ size_consistent miscounted_tree /\
  Size (Insert (2, 20) miscounted_tree) = 2 /\
  count_nodes (m_Root (Insert (2, 20) miscounted_tree)) = 1%nat.
Proof.
  assert (E : Insert_alloc (1, 10) 0 (empty_tree : BinarySearchTree Z Z)
              = BadAlloc miscounted_tree) by reflexivity.
  split; [exact E|]. split.
  - exact (reach_insert_throws (1, 10) 0 empty_tree miscounted_tree reach_default E).
  - repeat split. intros H. vm_compute in H. discriminate H.
Qed.

(** Inserting (3, 99) into the scenario tree, which holds (3, 30). *)
Lemma duplicate_insert_noop_witness :
  Insert (3, 99) demo_tree = demo_tree /\
  m_Root (Insert (3, 99) demo_tree) = m_Root demo_tree /\
  Size (Insert (3, 99) demo_tree) = Size demo_tree /\
  Find 3 (Insert (3, 99) demo_tree) = Some 30.
Proof.
  apply (duplicate_insert_noop demo_tree 3 30 99).
  - vm_compute. tauto.
  - vm_compute. tauto.
Defined.

(** Key 6 inserted into the scenario tree, then calls on the keys 5 and 2. *)
Lemma insert_find_round_trip_witness :
  Contains 6 (Insert (6, 60) demo_tree) = true /\
  Find 6 (Insert (6, 60) demo_tree) = Some 60 /\
  Contains 6 (run [OpErase 5; OpInsert (2, 20)] (Insert (6, 60) demo_tree)) = true /\
  Find 6 (run [OpErase 5; OpInsert (2, 20)] (Insert (6, 60) demo_tree)) = Some 60 /\
  Contains 6 (Erase 6 (run [OpErase 5; OpInsert (2, 20)] (Insert (6, 60) demo_tree)))
    = false.
Proof.
  apply (insert_find_round_trip demo_tree 6 60 [OpErase 5; OpInsert (2, 20)]).
  - vm_compute. tauto.
  - vm_compute. intuition discriminate.
  - repeat constructor; discriminate.
Defined.

(** Erasing the root 5 of the scenario tree: its successor is 7. *)
Lemma erase_two_children_witness :
  exists succ : Pair Z Z,
    succ = (7, 70) /\
    m_Root (Erase 5 demo_tree) =
      BinaryNode succ demo_left
        (BinaryNode (8, 80) nullptr (BinaryNode (9, 90) nullptr nullptr)) /\
    Size (Erase 5 demo_tree) = 6.
Proof.
  destruct (erase_two_children demo_tree [] 5 50 demo_left demo_right)
    as (succ & sr & r' & Hr' & Hm & Hroot & _ & _ & _ & _ & _ & _ & Hsize).
  - vm_compute. tauto.
  - reflexivity.
  - reflexivity.
  - reflexivity.
  - assert (Hs : succ = (7, 70)) by (vm_compute in Hm; congruence).
    exists succ. split; [exact Hs|]. split.
    + rewrite Hroot, Hr', Hs. reflexivity.
    + rewrite Hsize; [reflexivity | reflexivity | vm_compute; reflexivity].
Defined.

(** Erasing 5 from the scenario tree. *)
Lemma erase_frame_witness :
  (forall k', k' <> 5 ->
     Contains k' (Erase 5 demo_tree) = Contains k' demo_tree /\
     Find k' (Erase 5 demo_tree) = Find k' demo_tree) /\
  (~ In 5 (keys (m_Root demo_tree)) -> Erase 5 demo_tree = demo_tree).
Proof.
  apply (erase_frame demo_tree 5).
  vm_compute. tauto.
Defined.

(** Key 6 is not in the scenario tree. *)
Lemma contains_total_witness :
  Contains 6 demo_tree = false /\
  Contains 6 (empty_tree : BinarySearchTree Z Z) = false /\
  Find 6 demo_tree = None /\
  Find 6 (empty_tree : BinarySearchTree Z Z) = None /\
  Root (empty_tree : BinarySearchTree Z Z) = None /\
  Min (empty_tree : BinarySearchTree Z Z) = None /\
  Max (empty_tree : BinarySearchTree Z Z) = None.
Proof.
  apply (contains_total demo_tree 6).
  vm_compute. intuition discriminate.
Defined.

(** Moving the object at address 1 into the object at address 0. *)
Lemma move_transfer_witness :
  move_assign 0 1 demo_store =
    Some (<[1%nat := empty_tree]> (<[0%nat := init_tree (2, 20)]> demo_store)) /\
  move_assign 1 1 demo_store = Some demo_store.
Proof.
  destruct (move_transfer demo_store 1 0 (init_tree (2, 20)))
    as (Hassign & _ & _ & Hself).
  - reflexivity.
  - split; [|exact Hself].
    destruct (Hassign (init_tree (1, 10))) as (σ' & -> & Hb & Ha & Hc).
    + reflexivity.
    + discriminate.
    + f_equal. apply map_eq. intros c.
      destruct (decide (c = 1%nat)) as [->|H1];
        [now rewrite Ha, lookup_insert_eq|].
      rewrite lookup_insert_ne by congruence.
      destruct (decide (c = 0%nat)) as [->|H0];
        [now rewrite Hb, lookup_insert_eq|].
      rewrite lookup_insert_ne by congruence. now apply Hc.
Defined.

(** The three lines written for the scenario tree. *)
Lemma level_by_level_output_witness :
  LevelByLevel id 10 (scenario_tree demo_name) =
  Some ("5 " +:+ newline +:+ "3 8 " +:+ newline +:+ "1 4 7 9 " +:+ newline).
Proof.
  destruct (level_by_level_output id (scenario_tree demo_name) 10 demo_name)
    as (H & _).
  - vm_compute. lia.
  - rewrite H. reflexivity.
Defined.



(* ===================================================================== *)
(** ** The in-order traversal as the contents of the tree                *)
(* ===================================================================== *)

Section Contents.

Context {K V : Type} `{KT : KeyType K}.

Abbreviation NodePointer := (NodePointer K V).
Abbreviation BinarySearchTree := (BinarySearchTree K V).
Abbreviation Pair := (Pair K V).
Abbreviation Op := (Op K V).

Implicit Types (node l r : NodePointer) (t : BinarySearchTree)
  (d data p q : Pair) (key k : K) (sz : Z).

Lemma key_eqb_eq (a b : K) : key_eqb a b = true <-> a = b.
Proof.
  unfold key_eqb. destruct (key_cmpP a b) as [H|H|H]; simpl.
  - split; [discriminate | intros E; subst; destruct (key_lt_irrefl _ H)].
  - tauto.
  - split; [discriminate | intros E; subst; destruct (key_lt_irrefl _ H)].
Qed.

Lemma key_eqb_refl (a : K) : key_eqb a a = true.
Proof. now apply key_eqb_eq. Qed.

Lemma key_eqb_neq (a b : K) : key_eqb a b = false <-> a <> b.
Proof.
  rewrite <- key_eqb_eq. destruct (key_eqb a b); split; congruence.
Qed.

(** The pairs of a search tree are listed in increasing order of key. *)
Lemma bst_sorted_pairs node : bst node -> StronglySorted pair_lt (inorder node).
Proof.
  induction node as [|d l IHl r IHr]; simpl; [constructor|].
  intros (Hl & Hr & Bl & Br).
  apply StronglySorted_app. split; [|split; [auto|]].
  - intros x1 x2 H1 [->|H2]%elem_of_cons.
    + apply list_elem_of_In in H1. exact (all_keys_In _ _ _ Hl H1).
    + apply list_elem_of_In in H1, H2. unfold pair_lt.
      exact (key_lt_trans _ _ _ (all_keys_In _ _ _ Hl H1) (all_keys_In _ _ _ Hr H2)).
  - apply StronglySorted_cons. split; [|auto].
    apply Forall_forall. intros x Hx. apply list_elem_of_In in Hx.
    exact (all_keys_In _ _ _ Hr Hx).
Qed.

(** Two lists in strictly increasing order with the same elements are the
    same list. *)
Lemma sorted_pairs_ext (l1 l2 : list Pair) :
  StronglySorted pair_lt l1 -> StronglySorted pair_lt l2 ->
  (forall x, In x l1 <-> In x l2) -> l1 = l2.
Proof.
  revert l2. induction l1 as [|a l1 IH]; intros l2 S1 S2 Hin.
  - destruct l2 as [|b l2]; [reflexivity|].
    destruct (proj2 (Hin b)). now left.
  - destruct l2 as [|b l2]; [destruct (proj1 (Hin a)); now left|].
    apply StronglySorted_cons in S1 as [Ha S1], S2 as [Hb S2].
    rewrite Forall_forall in Ha, Hb.
    assert (E : a = b).
    { destruct (proj1 (Hin a) (or_introl eq_refl)) as [E|Hab]; [now symmetry|].
      destruct (proj2 (Hin b) (or_introl eq_refl)) as [E|Hba]; [exact E|].
      apply list_elem_of_In in Hab, Hba.
      destruct (key_lt_asym _ _ (Ha _ Hba) (Hb _ Hab)). }
    subst b. f_equal. apply IH; auto.
    intros x. split; intros Hx.
    + destruct (proj1 (Hin x) (or_intror Hx)) as [<-|H]; [|exact H].
      apply list_elem_of_In in Hx. destruct (key_lt_irrefl _ (Ha _ Hx)).
    + destruct (proj2 (Hin x) (or_intror Hx)) as [<-|H]; [|exact H].
      apply list_elem_of_In in Hx. destruct (key_lt_irrefl _ (Hb _ Hx)).
Qed.

(** What [Find] returns is stored in the tree. *)
Lemma FindNode_data_In key node d :
  data_of (FindNode key node) = Some d -> In d (inorder node).
Proof.
  induction node as [|d0 l IHl r IHr]; simpl; [discriminate|].
  rewrite in_app_iff. simpl.
  key_cases key (fst d0); intros H; auto.
  injection H as ->. auto.
Qed.

(** In a search tree the stored pairs are exactly what [Find] returns. *)
Lemma In_inorder_FindNode node d :
  bst node -> In d (inorder node) <-> data_of (FindNode (fst d) node) = Some d.
Proof.
  intros B. split; [now apply FindNode_stored | apply FindNode_data_In].
Qed.

(** Search trees on which [Find] agrees for every key hold the same pairs
    in the same order. *)
Lemma inorder_ext node1 node2 :
  bst node1 -> bst node2 ->
  (forall key, data_of (FindNode key node1) = data_of (FindNode key node2)) ->
  inorder node1 = inorder node2.
Proof.
  intros B1 B2 H. apply sorted_pairs_ext; auto using bst_sorted_pairs.
  intros x. rewrite !In_inorder_FindNode by assumption. now rewrite H.
Qed.

Lemma sorted_pairs_filter (P : Pair -> bool) (l : list Pair) :
  StronglySorted pair_lt l -> StronglySorted pair_lt (List.filter P l).
Proof.
  induction 1 as [|a l S IH Ha]; simpl; [constructor|].
  destruct (P a); [|exact IH].
  constructor; [exact IH|].
  rewrite Forall_forall in *. intros x Hx.
  apply Ha. apply list_elem_of_In in Hx. apply list_elem_of_In.
  apply List.filter_In in Hx. tauto.
Qed.

End Contents.

(* ===================================================================== *)
(** ** Min, Max, Root and Empty                                          *)
(* ===================================================================== *)

Section Extremes.

Context {K V : Type} `{KT : KeyType K}.

Abbreviation NodePointer := (NodePointer K V).
Abbreviation BinarySearchTree := (BinarySearchTree K V).
Abbreviation Pair := (Pair K V).
Abbreviation Op := (Op K V).

Implicit Types (node l r : NodePointer) (t : BinarySearchTree)
  (d data p q m : Pair) (key k : K) (sz : Z).

Lemma head_inorder_None node : head (inorder node) = None <-> node = nullptr.
Proof.
  destruct node as [|d l r]; simpl; [tauto|].
  rewrite head_app. destruct (head (inorder l)); split; discriminate.
Qed.

Lemma last_inorder_None node : last (inorder node) = None <-> node = nullptr.
Proof.
  destruct node as [|d l r]; simpl; [tauto|].
  rewrite last_app, last_cons. destruct (last (inorder r)); split; discriminate.
Qed.

(** The node [Min] walks to holds the first pair of the in-order
    traversal; the one [Max] walks to holds the last. *)
Lemma MinNode_head node : data_of (MinNode node) = head (inorder node).
Proof.
  induction node as [|d l IHl r _]; [reflexivity|].
  cbn [MinNode inorder]. rewrite head_app.
  destruct l as [|dl ll lr]; [reflexivity|].
  cbn [nonnull]. rewrite IHl.
  destruct (head (inorder (BinaryNode dl ll lr))) eqn:E; [reflexivity|].
  apply head_inorder_None in E. discriminate.
Qed.

Lemma MaxNode_last node : data_of (MaxNode node) = last (inorder node).
Proof.
  induction node as [|d l _ r IHr]; [reflexivity|].
  cbn [MaxNode inorder]. rewrite last_app, last_cons.
  destruct r as [|dr rl rr]; [reflexivity|].
  cbn [nonnull]. rewrite IHr.
  destruct (last (inorder (BinaryNode dr rl rr))) eqn:E; [reflexivity|].
  apply last_inorder_None in E. discriminate.
Qed.

(** X1 ([Min]).  On a search tree [Min()] returns the first pair of the
    in-order traversal (and dereferences null exactly when the tree has no
    root); every other stored pair has a strictly greater key. *)
Theorem Min_is_least t :
  bst (m_Root t) ->
  Min t = head (inorder (m_Root t)) /\
  (Min t = None <-> m_Root t = nullptr) /\
  (forall m p, Min t = Some m -> In p (inorder (m_Root t)) ->
     p = m \/ key_lt (fst m) (fst p)).
Proof.
  intros B. unfold Min. rewrite MinNode_head.
  split; [reflexivity|]. split; [apply head_inorder_None|].
  intros m p Hm Hp. apply head_Some in Hm as [rest E].
  pose proof (bst_sorted_pairs _ B) as S. rewrite E in S, Hp.
  apply StronglySorted_cons in S as [Hall _]. rewrite Forall_forall in Hall.
  destruct Hp as [->|Hp]; [now left | right].
  apply Hall. now apply list_elem_of_In.
Qed.

(** X2 ([Max]).  On a search tree [Max()] returns the last pair of the
    in-order traversal (and dereferences null exactly when the tree has no
    root); every other stored pair has a strictly smaller key. *)
Theorem Max_is_greatest t :
  bst (m_Root t) ->
  Max t = last (inorder (m_Root t)) /\
  (Max t = None <-> m_Root t = nullptr) /\
  (forall m p, Max t = Some m -> In p (inorder (m_Root t)) ->
     p = m \/ key_lt (fst p) (fst m)).
Proof.
  intros B. unfold Max. rewrite MaxNode_last.
  split; [reflexivity|]. split; [apply last_inorder_None|].
  intros m p Hm Hp. apply last_Some in Hm as [init E].
  pose proof (bst_sorted_pairs _ B) as S. rewrite E in S, Hp.
  apply StronglySorted_app in S as (Hcross & _ & _).
  apply in_app_iff in Hp as [Hp|[->|[]]]; [right | now left].
  apply (Hcross p m); [now apply list_elem_of_In | apply list_elem_of_In; now left].
Qed.

Lemma Root_Insert data t :
  m_Root t <> nullptr -> Root (Insert data t) = Root t.
Proof.
  unfold Root, Insert. cbn [m_Root].
  destruct (m_Root t) as [|d l r]; [contradiction|]. intros _. simpl.
  key_cases (fst data) (fst d); reflexivity.
Qed.

Lemma Root_Erase key t d :
  Root t = Some d -> key <> fst d -> Root (Erase key t) = Some d.
Proof.
  unfold Root, Erase. cbn [m_Root].
  destruct (m_Root t) as [|d0 l r]; [discriminate|]. simpl.
  intros [= ->] Hne. key_cases key (fst d); [reflexivity | contradiction | reflexivity].
Qed.

(** X3 ([Root]).  The tree is never rebalanced: a pair that is at the root
    stays there through every later [Insert], and through every [Erase] of
    another key. *)
Theorem Root_is_stable t (d : Pair) (ops : list Op) :
  Root t = Some d ->
  (forall key, In (OpErase key) ops -> key <> fst d) ->
  Root (run ops t) = Some d.
Proof.
  revert t. induction ops as [|o ops IH]; intros t Hr Hops; [exact Hr|].
  change (run (o :: ops) t) with (run ops (apply_op t o)).
  apply IH; [|intros key Hk; apply Hops; now right].
  destruct o as [data|key]; cbn [apply_op].
  - rewrite Root_Insert; [exact Hr|].
    unfold Root in Hr. destruct (m_Root t); [discriminate | discriminate].
  - apply Root_Erase; [exact Hr|]. apply Hops. now left.
Qed.

(** X4 ([Empty]).  [Empty()] tests [m_Size], not the root.  On a tree whose
    [m_Size] counts its nodes, a count that fits [std::size_t], it is true
    exactly when the tree has no root.  It is not so on every value an
    object can take: after an [Insert] into the empty tree in which [new]
    throws, the tree has no root and [Empty()] is false. *)
Theorem Empty_iff_no_root t data :
  (size_consistent t ->
   Z.of_nat (count_nodes (m_Root t)) < SIZE_MODULUS ->
   (Empty t = true <-> m_Root t = nullptr)) /\
  (exists t' : BinarySearchTree,
     Insert_alloc data 0 empty_tree = BadAlloc t' /\
     reachable t' /\ m_Root t' = nullptr /\ Empty t' = false).
Proof.
  split.
  - intros S Hlt. unfold Empty. rewrite S, Z.mod_small by lia.
    rewrite Z.eqb_eq, <- count_nodes_zero. lia.
  - exists (mkTree nullptr (size_incr 0)).
    assert (E : Insert_alloc data 0 (empty_tree : BinarySearchTree)
                = BadAlloc (mkTree nullptr (size_incr 0))) by reflexivity.
    split; [exact E|]. split; [|split; reflexivity].
    exact (reach_insert_throws data 0 empty_tree _ reach_default E).
Qed.

End Extremes.

(* ===================================================================== *)
(** ** How Insert and Erase compose                                      *)
(* ===================================================================== *)

Section Composition.

Context {K V : Type} `{KT : KeyType K}.

Abbreviation NodePointer := (NodePointer K V).
Abbreviation BinarySearchTree := (BinarySearchTree K V).
Abbreviation Pair := (Pair K V).
Abbreviation Op := (Op K V).

Implicit Types (node l r : NodePointer) (t : BinarySearchTree)
  (d data p q m : Pair) (key k : K) (sz : Z).

Lemma EraseNode_InsertNode k (v : V) node sz sz' :
  FindNode k node = nullptr ->
  EraseNode k (fst (InsertNode (k, v) node sz)) sz' = (node, size_decr sz').
Proof.
  induction node as [|d l IHl r IHr]; simpl.
  - intros _. now rewrite key_ltb_irrefl.
  - key_cases k (fst d); intros H.
    + now rewrite IHl.
    + discriminate.
    + now rewrite IHr.
Qed.

Lemma size_decr_incr sz :
  0 <= sz < SIZE_MODULUS -> size_decr (size_incr sz) = sz.
Proof.
  intros H. unfold size_decr, size_incr.
  rewrite Zminus_mod_idemp_l. replace (sz + 1 - 1) with sz by lia.
  now apply Z.mod_small.
Qed.

(** X5 (insert, then erase).  Inserting a key that is absent and erasing it
    again gives back the very same tree: same shape, same pairs, same
    [m_Size] (a [std::size_t], so in [0, 2^64)). *)
Theorem Erase_Insert_restores t k (v : V) :
  Contains k t = false ->
  0 <= m_Size t < SIZE_MODULUS ->
  Erase k (Insert (k, v) t) = t.
Proof.
  intros Hc Hsz. apply Contains_false_FindNode in Hc.
  unfold Erase, Insert. cbn [m_Root m_Size].
  rewrite (EraseNode_InsertNode k v _ _ _ Hc). cbn [fst snd].
  destruct (InsertNode_absent (k, v) (m_Root t) (m_Size t) Hc) as [_ ->].
  rewrite size_decr_incr by exact Hsz. now destruct t.
Qed.

(** X6 (erase twice).  On a search tree a second [Erase] of the same key
    changes nothing. *)
Theorem Erase_idempotent t k :
  bst (m_Root t) -> Erase k (Erase k t) = Erase k t.
Proof.
  intros B. apply Erase_absent. now apply Contains_Erase_same.
Qed.

(** What [Find] returns after one call, on a search tree. *)
Lemma FindNode_apply_op t (o : Op) key :
  bst (m_Root t) ->
  data_of (FindNode key (m_Root (apply_op t o))) =
  if key_eqb key (op_key o) then
    match o with
    | OpInsert data =>
        match data_of (FindNode key (m_Root t)) with
        | Some x => Some x
        | None => Some data
        end
    | OpErase _ => None
    end
  else data_of (FindNode key (m_Root t)).
Proof.
  intros B. destruct (key_eqb key (op_key o)) eqn:E.
  - apply key_eqb_eq in E. subst key. destruct o as [data|k]; cbn [apply_op op_key].
    + unfold Insert. cbn [m_Root].
      destruct (FindNode (fst data) (m_Root t)) as [|x xl xr] eqn:F.
      * now rewrite FindNode_InsertNode_same.
      * rewrite InsertNode_present by now rewrite F. cbn [fst]. now rewrite F.
    + unfold Erase. cbn [m_Root]. now rewrite FindNode_EraseNode_same.
  - apply key_eqb_neq in E. destruct o as [data|k]; cbn [apply_op op_key] in *.
    + unfold Insert. cbn [m_Root]. now apply FindNode_InsertNode_other.
    + unfold Erase. cbn [m_Root]. now apply FindNode_EraseNode_other.
Qed.

Lemma bst_apply_op t (o : Op) : bst (m_Root t) -> bst (m_Root (apply_op t o)).
Proof. destruct o; [apply bst_InsertNode | apply bst_EraseNode]. Qed.

(** X7 (contents after [Erase]).  On a search tree, [Erase(k)] removes the
    pair whose key is [k] from the in-order traversal and keeps every other
    pair, in the same order. *)
Theorem Erase_contents t k :
  bst (m_Root t) ->
  inorder (m_Root (Erase k t)) =
  List.filter (fun p => negb (key_eqb (fst p) k)) (inorder (m_Root t)).
Proof.
  intros B. apply sorted_pairs_ext.
  - apply bst_sorted_pairs. now apply bst_EraseNode.
  - apply sorted_pairs_filter. now apply bst_sorted_pairs.
  - intros x. rewrite List.filter_In.
    rewrite (In_inorder_FindNode (m_Root (Erase k t)) x)
      by now apply bst_EraseNode.
    change (Erase k t) with (apply_op t (OpErase k)).
    rewrite (FindNode_apply_op t (OpErase k) (fst x) B). cbn [op_key].
    rewrite (In_inorder_FindNode _ x B).
    destruct (key_eqb (fst x) k); simpl.
    + split; [discriminate | intros [_ H]; discriminate].
    + split; [now split | now intros [H _]].
Qed.

(** X8 (contents after [Insert]).  On a search tree that does not hold the
    key, [Insert] puts the new pair between the pairs with smaller keys and
    the pairs with greater keys, and keeps those in their order. *)
Theorem Insert_contents t data :
  bst (m_Root t) ->
  Contains (fst data) t = false ->
  inorder (m_Root (Insert data t)) =
  List.filter (fun p => fst p <k fst data) (inorder (m_Root t))
    ++ data :: List.filter (fun p => fst data <k fst p) (inorder (m_Root t)).
Proof.
  intros B Hc. apply Contains_false_FindNode in Hc.
  pose proof (bst_sorted_pairs _ B) as S.
  apply sorted_pairs_ext.
  - apply bst_sorted_pairs. now apply bst_InsertNode.
  - apply StronglySorted_app. split; [|split].
    + intros x1 x2 H1 H2. apply list_elem_of_In, List.filter_In in H1 as [_ H1].
      apply elem_of_cons in H2 as [->|H2]; [exact H1|].
      apply list_elem_of_In, List.filter_In in H2 as [_ H2].
      exact (key_lt_trans _ _ _ H1 H2).
    + now apply sorted_pairs_filter.
    + apply StronglySorted_cons. split; [|now apply sorted_pairs_filter].
      apply Forall_forall. intros x Hx.
      apply list_elem_of_In, List.filter_In in Hx as [_ Hx]. exact Hx.
  - intros x. rewrite in_app_iff. cbn [In]. rewrite !List.filter_In.
    rewrite (In_inorder_FindNode (m_Root (Insert data t)) x)
      by now apply bst_InsertNode.
    change (Insert data t) with (apply_op t (OpInsert data)).
    rewrite (FindNode_apply_op t (OpInsert data) (fst x) B). cbn [op_key].
    rewrite (In_inorder_FindNode _ x B).
    destruct (key_cmpP (fst x) (fst data)) as [Hlt|Heq|Hgt].
    + assert (E : key_eqb (fst x) (fst data) = false)
        by (apply key_eqb_neq; intros E; rewrite E in Hlt;
            exact (key_lt_irrefl _ Hlt)).
      rewrite E. split; [tauto|].
      intros [[H _]|[->|[_ H]]]; [exact H | | discriminate].
      destruct (key_lt_irrefl _ Hlt).
    + rewrite (proj2 (key_eqb_eq _ _) Heq). rewrite Heq, Hc. simpl.
      split; [intros [= ->]; auto|].
      intros [[_ H]|[->|[_ H]]]; [discriminate | reflexivity | discriminate].
    + assert (E : key_eqb (fst x) (fst data) = false)
        by (apply key_eqb_neq; intros E; rewrite E in Hgt;
            exact (key_lt_irrefl _ Hgt)).
      rewrite E. split; [tauto|].
      intros [[_ H]|[->|[H _]]]; [discriminate | | exact H].
      destruct (key_lt_irrefl _ Hgt).
Qed.

(** X9 (calls on distinct keys commute).  On a search tree, two calls of
    [Insert] or [Erase] on different keys leave the same pairs in the tree
    whichever comes first (the shapes may differ), and the same [Size()]. *)
Theorem distinct_keys_commute t (o1 o2 : Op) :
  bst (m_Root t) ->
  op_key o1 <> op_key o2 ->
  inorder (m_Root (run [o1; o2] t)) = inorder (m_Root (run [o2; o1] t)) /\
  (size_consistent t -> Size (run [o1; o2] t) = Size (run [o2; o1] t)).
Proof.
  intros B Hne.
  assert (E : inorder (m_Root (run [o1; o2] t)) = inorder (m_Root (run [o2; o1] t))).
  { cbn [run fold_left]. apply inorder_ext; auto using bst_apply_op.
    intros key.
    rewrite !FindNode_apply_op by auto using bst_apply_op.
    destruct (key_eqb key (op_key o1)) eqn:E1, (key_eqb key (op_key o2)) eqn:E2;
      try reflexivity.
    apply key_eqb_eq in E1, E2. congruence. }
  split; [exact E|].
  intros S.
  pose proof (tree_inv_run [o1; o2] t (conj B S)) as [_ S12].
  pose proof (tree_inv_run [o2; o1] t (conj B S)) as [_ S21].
  unfold Size. rewrite S12, S21, !count_nodes_inorder, E. reflexivity.
Qed.

(** X10 ([Contains] and [Find]).  On a search tree [Find(k)] returns [v]
    exactly when the pair [(k, v)] is stored, and [Contains(k)] is true
    exactly when some node holds [k]. *)
Theorem Find_iff_stored t k (v : V) :
  bst (m_Root t) ->
  (Find k t = Some v <-> In (k, v) (inorder (m_Root t))) /\
  (Contains k t = true <-> In k (keys (m_Root t))).
Proof.
  intros B. split; [|now apply Contains_In].
  rewrite (In_inorder_FindNode _ (k, v) B). cbn [fst]. unfold Find.
  destruct (FindNode k (m_Root t)) as [|[k' v'] l r] eqn:F; simpl.
  - split; discriminate.
  - pose proof (FindNode_key _ _ _ _ _ F) as E. simpl in E. subst k'.
    split; intros [= ->]; reflexivity.
Qed.

End Composition.

(* ===================================================================== *)
(** ** Where Insert and Erase change the tree                            *)
(* ===================================================================== *)

Section Shape.

Context {K V : Type} `{KT : KeyType K}.

Abbreviation NodePointer := (NodePointer K V).
Abbreviation BinarySearchTree := (BinarySearchTree K V).
Abbreviation Pair := (Pair K V).
Abbreviation Op := (Op K V).

Implicit Types (node l r : NodePointer) (t : BinarySearchTree)
  (d data p q m : Pair) (key k : K) (sz : Z) (path : list Direction).

(** X11 (first insert wins).  After [Insert((k, v))] a further
    [Insert((k, v'))] changes nothing, on any tree: the value stored first
    stays. *)
Theorem first_insert_wins t k (v v' : V) :
  Insert (k, v') (Insert (k, v) t) = Insert (k, v) t.
Proof.
  apply (Insert_present (k, v')). cbn [fst].
  destruct (Contains k t) eqn:E.
  - now rewrite (Insert_present (k, v) t E).
  - apply Contains_Find. exists v. exact (Find_Insert_same (k, v) t E).
Qed.

Lemma InsertNode_leaf data node sz :
  FindNode (fst data) node = nullptr ->
  exists path,
    subtree_at path node = nullptr /\
    fst (InsertNode data node sz) =
      replace_at path (BinaryNode data nullptr nullptr) node /\
    subtree_at path (fst (InsertNode data node sz)) =
      BinaryNode data nullptr nullptr.
Proof.
  induction node as [|d l IHl r IHr]; simpl.
  - intros _. now exists [].
  - key_cases (fst data) (fst d); intros H.
    + destruct (IHl H) as (path & H1 & H2 & H3).
      exists (GoLeft :: path). cbn [subtree_at replace_at]. now rewrite <- H2.
    + discriminate.
    + destruct (IHr H) as (path & H1 & H2 & H3).
      exists (GoRight :: path). cbn [subtree_at replace_at]. now rewrite <- H2.
Qed.

(** X12 ([Insert] adds a leaf).  Inserting a key that [Find] does not
    reach hangs one new childless node on a link that was null and leaves
    every other link of the tree as it was. *)
Theorem Insert_adds_leaf t data :
  Contains (fst data) t = false ->
  exists path,
    subtree_at path (m_Root t) = nullptr /\
    m_Root (Insert data t) =
      replace_at path (BinaryNode data nullptr nullptr) (m_Root t) /\
    subtree_at path (m_Root (Insert data t)) = BinaryNode data nullptr nullptr /\
    count_nodes (m_Root (Insert data t)) = S (count_nodes (m_Root t)).
Proof.
  intros Hc. apply Contains_false_FindNode in Hc.
  destruct (InsertNode_leaf data (m_Root t) (m_Size t) Hc) as (path & H1 & H2 & H3).
  exists path. unfold Insert. cbn [m_Root].
  repeat split; auto.
  exact (proj1 (InsertNode_absent data (m_Root t) (m_Size t) Hc)).
Qed.

(** X13 ([Erase] of a node with at most one child).  In a search tree, let
    the node at [path] hold [k] and have at most one child.  [Erase(k)]
    puts that child (or null) on the link to the node, rewires nothing
    else, decrements [m_Size], and the in-order traversal loses exactly the
    pair of [k]. *)
Theorem erase_at_most_one_child t path k (v : V) l r :
  bst (m_Root t) ->
  subtree_at path (m_Root t) = BinaryNode (k, v) l r ->
  nonnull l && nonnull r = false ->
  m_Root (Erase k t) = replace_at path (if nonnull l then l else r) (m_Root t) /\
  Size (Erase k t) = (Size t - 1) mod SIZE_MODULUS /\
  (exists pre post,
      inorder (m_Root t) = pre ++ (k, v) :: post /\
      inorder (m_Root (Erase k t)) = pre ++ post).
Proof.
  intros B Hsub Hone.
  pose proof (EraseNode_at path _ _ _ _ (m_Size t) B Hsub) as Hat.
  cbn [fst EraseNode] in Hat. rewrite key_ltb_irrefl, Hone in Hat.
  cbn [fst snd] in Hat.
  assert (Hroot : m_Root (Erase k t) =
                  replace_at path (if nonnull l then l else r) (m_Root t)).
  { unfold Erase. cbn [m_Root]. now rewrite Hat. }
  split; [exact Hroot|]. split.
  - unfold Erase, Size. cbn [m_Size]. now rewrite Hat.
  - destruct (inorder_replace_at path (if nonnull l then l else r) _ _ _ _ Hsub)
      as (pre & post & E1 & E2).
    exists (pre ++ inorder l), (inorder r ++ post).
    rewrite Hroot, E1, E2. cbn [inorder].
    assert (E : inorder (if nonnull l then l else r) = inorder l ++ inorder r).
    { destruct l, r; simpl in *; try discriminate; now rewrite ?app_nil_r. }
    rewrite E. split; repeat (rewrite <- app_assoc; simpl); reflexivity.
Qed.

Lemma height_InsertNode data node sz :
  (height node <= height (fst (InsertNode data node sz)) <= S (height node))%nat.
Proof.
  induction node as [|d l IHl r IHr]; simpl; [lia|].
  key_cases (fst data) (fst d); simpl; lia.
Qed.

Lemma height_EraseNode key node sz :
  (height (fst (EraseNode key node sz)) <= height node)%nat.
Proof.
  revert key. induction node as [|d l IHl r IHr]; intros key; simpl; [lia|].
  key_cases key (fst d).
  - specialize (IHl key). lia.
  - destruct (nonnull l && nonnull r); simpl.
    + destruct (MinNode r) as [|m ml mr]; simpl; [lia|].
      specialize (IHr (fst m)). lia.
    + destruct (nonnull l); lia.
  - specialize (IHr key). lia.
Qed.

(** X14 (height).  [Insert] deepens the tree by at most one level and never
    makes it shallower; [Erase] never deepens it. *)
Theorem height_after_Insert_Erase t data k :
  (height (m_Root t) <= height (m_Root (Insert data t)) <= S (height (m_Root t)))%nat /\
  (height (m_Root (Erase k t)) <= height (m_Root t))%nat.
Proof.
  split; [apply height_InsertNode | apply height_EraseNode].
Qed.

Lemma InsertNode_right_chain (ds : list Pair) data sz :
  Forall (fun p => pair_lt p data) ds ->
  fst (InsertNode data (right_chain ds) sz) = right_chain (ds ++ [data]).
Proof.
  induction 1 as [|p ds Hp _ IH]; simpl; [reflexivity|].
  unfold pair_lt in Hp.
  rewrite (key_ltb_false_of_lt _ _ Hp), Hp. simpl. now rewrite IH.
Qed.

Lemma run_right_chain (ds acc : list Pair) t :
  StronglySorted pair_lt (acc ++ ds) ->
  m_Root t = right_chain acc ->
  m_Root (run (map OpInsert ds) t) = right_chain (acc ++ ds).
Proof.
  revert acc t. induction ds as [|d ds IH]; intros acc t S Ht.
  - now rewrite app_nil_r.
  - cbn [map]. change (run (OpInsert d :: map OpInsert ds) t)
      with (run (map OpInsert ds) (Insert d t)).
    replace (acc ++ d :: ds) with ((acc ++ [d]) ++ ds) in *
      by now rewrite <- app_assoc.
    apply IH; [exact S|].
    unfold Insert. cbn [m_Root]. rewrite Ht.
    apply InsertNode_right_chain.
    apply StronglySorted_app in S as (_ & S & _).
    apply StronglySorted_app in S as (Hcross & _ & _).
    apply Forall_forall. intros x Hx. apply Hcross; [exact Hx | now left].
Qed.

Lemma height_right_chain (ds : list Pair) : height (right_chain ds) = length ds.
Proof. induction ds as [|d ds IH]; simpl; [reflexivity | now rewrite IH]. Qed.

(** X15 (no balancing).  Pairs inserted into the empty tree in increasing
    order of key form a chain of right children: the height of the tree is
    its number of nodes. *)
Theorem increasing_inserts_degenerate (ds : list Pair) :
  StronglySorted pair_lt ds ->
  m_Root (run (map OpInsert ds) empty_tree) = right_chain ds /\
  height (m_Root (run (map OpInsert ds) empty_tree)) = length ds /\
  count_nodes (m_Root (run (map OpInsert ds) empty_tree)) = length ds.
Proof.
  intros S.
  assert (E : m_Root (run (map OpInsert ds) (empty_tree : BinarySearchTree))
              = right_chain ds)
    by exact (run_right_chain ds [] empty_tree S eq_refl).
  rewrite E. split; [reflexivity|]. split; [apply height_right_chain|].
  clear. induction ds as [|d ds IH]; simpl; [reflexivity | now rewrite IH].
Qed.

End Shape.

(* ===================================================================== *)
(** ** Clear, Copy and the free store                                    *)
(* ===================================================================== *)

Section Memory.

Context {K V : Type} `{KT : KeyType K}.

Abbreviation NodePointer := (NodePointer K V).
Abbreviation BinarySearchTree := (BinarySearchTree K V).
Abbreviation Pair := (Pair K V).
Abbreviation Store := (gmap nat BinarySearchTree).

Implicit Types (node l r : NodePointer) (t : BinarySearchTree)
  (d data : Pair) (key k : K) (sz : Z) (avail : nat) (σ : Store).

Lemma Clear_deleted_child node :
  (if nonnull node then Clear_deleted node else []) = Clear_deleted node.
Proof. now destruct node. Qed.

Lemma Clear_deleted_perm node : Clear_deleted node ≡ₚ inorder node.
Proof.
  induction node as [|d l IHl r IHr]; [reflexivity|].
  cbn [Clear_deleted inorder]. rewrite !Clear_deleted_child, IHl, IHr.
  rewrite (Permutation_app_comm (inorder r) [d]). reflexivity.
Qed.

Lemma Clear_deleted_node d l r :
  Clear_deleted (BinaryNode d l r) = Clear_deleted l ++ Clear_deleted r ++ [d].
Proof. cbn [Clear_deleted]. now rewrite !Clear_deleted_child. Qed.

(** The [delete]s below a node form one block of the trace: those of its
    left subtree, those of its right subtree, then the node itself. *)
Lemma Clear_deleted_at (path : list Direction) node d l r :
  subtree_at path node = BinaryNode d l r ->
  exists before after,
    Clear_deleted node =
    before ++ (Clear_deleted l ++ Clear_deleted r ++ [d]) ++ after.
Proof.
  revert node. induction path as [|s path IH]; intros node.
  - cbn [subtree_at]. intros ->. exists [], [].
    now rewrite Clear_deleted_node, app_nil_r.
  - destruct node as [|d0 l0 r0]; [destruct s; discriminate|].
    destruct s; cbn [subtree_at]; intros H;
      destruct (IH _ H) as (before & after & E);
      rewrite (Clear_deleted_node d0 l0 r0), E.
    + exists before, (after ++ Clear_deleted r0 ++ [d0]).
      now rewrite <- !app_assoc.
    + exists (Clear_deleted l0 ++ before), (after ++ [d0]).
      now rewrite <- !app_assoc.
Qed.

(** X16 ([Clear]).  [Clear()] deletes every node of the tree exactly once
    and leaves the empty tree.  At every node of the tree, the nodes of its
    left subtree are deleted first, then the nodes of its right subtree,
    then at once the node itself: a node is deleted after all the nodes
    below it, and the root last. *)
Theorem Clear_deletes_every_node t :
  Clear_deleted (m_Root t) ≡ₚ inorder (m_Root t) /\
  length (Clear_deleted (m_Root t)) = count_nodes (m_Root t) /\
  last (Clear_deleted (m_Root t)) = Root t /\
  (forall (path : list Direction) d l r,
     subtree_at path (m_Root t) = BinaryNode d l r ->
     Clear_deleted l ≡ₚ inorder l /\
     Clear_deleted r ≡ₚ inorder r /\
     exists before after,
       Clear_deleted (m_Root t) =
       before ++ (Clear_deleted l ++ Clear_deleted r ++ [d]) ++ after) /\
  Clear t = empty_tree.
Proof.
  split; [apply Clear_deleted_perm|]. split; [|split; [|split]].
  - rewrite count_nodes_inorder. apply Permutation_length, Clear_deleted_perm.
  - unfold Root. destruct (m_Root t) as [|d l r]; [reflexivity|].
    cbn [Clear_deleted data_of]. now rewrite !app_assoc, last_snoc.
  - intros path d l r H.
    split; [apply Clear_deleted_perm|]. split; [apply Clear_deleted_perm|].
    exact (Clear_deleted_at path _ d l r H).
  - unfold Clear. now rewrite ClearNode_null.
Qed.

(** X17 ([Copy]).  [Copy] builds a tree equal to its source, node for node,
    with exactly one [new] per node of the source; it throws exactly when
    the free store has fewer nodes than the source. *)
Theorem Copy_is_exact node avail :
  Copy node = node /\
  Copy_alloc node avail =
    if decide (count_nodes node <= avail)%nat
    then Some (node, (avail - count_nodes node)%nat)
    else None.
Proof.
  split; [apply Copy_id|].
  destruct (decide (count_nodes node <= avail)%nat).
  - now apply Copy_alloc_enough.
  - apply Copy_alloc_short. lia.
Qed.

Lemma InsertNode_alloc_cases data node sz avail :
  InsertNode_alloc data node sz avail =
  if nonnull (FindNode (fst data) node) then Returned (node, sz)
  else match avail with
       | O => BadAlloc (node, size_incr sz)
       | S _ => Returned (InsertNode data node sz)
       end.
Proof.
  induction node as [|d l IHl r IHr]; simpl; [now destruct avail|].
  key_cases (fst data) (fst d).
  - rewrite IHl. destruct (nonnull (FindNode (fst data) l)); [reflexivity|].
    now destruct avail.
  - reflexivity.
  - rewrite IHr. destruct (nonnull (FindNode (fst data) r)); [reflexivity|].
    now destruct avail.
Qed.

(** X18 (when [Insert] throws).  [Insert] allocates only for a key that
    [Find] does not reach: with a key already present it returns, having
    changed nothing, even when the free store is empty; with an absent key
    it returns having inserted when a node is available, and otherwise
    throws with every node of the tree in place and [m_Size] already
    incremented. *)
Theorem Insert_alloc_cases data avail t :
  (Contains (fst data) t = true -> Insert_alloc data avail t = Returned t) /\
  (Contains (fst data) t = false -> (0 < avail)%nat ->
     Insert_alloc data avail t = Returned (Insert data t)) /\
  (Contains (fst data) t = false -> avail = 0%nat ->
     Insert_alloc data avail t =
       BadAlloc (mkTree (m_Root t) (size_incr (m_Size t)))).
Proof.
  unfold Insert_alloc, Contains, Insert. rewrite InsertNode_alloc_cases.
  split; [|split].
  - intros ->. now destruct t.
  - intros -> Hpos. destruct avail; [lia | reflexivity].
  - intros -> ->. reflexivity.
Qed.

(** X19 (a failed [Insert] miscounts).  When [new] throws in [Insert] on a
    tree whose [m_Size] counted its nodes, the tree that the caller is left
    with has the same nodes and a [Size()] that is one more than their
    number. *)
Theorem failed_Insert_miscounts data t :
  size_consistent t ->
  Z.of_nat (count_nodes (m_Root t)) + 1 < SIZE_MODULUS ->
  Contains (fst data) t = false ->
  exists t',
    Insert_alloc data 0 t = BadAlloc t' /\
    m_Root t' = m_Root t /\
    Size t' = Z.of_nat (count_nodes (m_Root t')) + 1 /\
    ~ size_consistent t'.
Proof.
  intros S Hlt Hc. exists (mkTree (m_Root t) (size_incr (m_Size t))).
  assert (Hsz : size_incr (m_Size t) = Z.of_nat (count_nodes (m_Root t)) + 1).
  { rewrite S, size_incr_mod. apply Z.mod_small. lia. }
  split; [|split; [reflexivity|split]].
  - unfold Insert_alloc, Contains in *. rewrite InsertNode_alloc_cases, Hc.
    reflexivity.
  - exact Hsz.
  - unfold size_consistent. cbn [m_Root m_Size]. rewrite Hsz.
    rewrite Z.mod_small by lia. lia.
Qed.

Lemma store_inv_of_returned σ :
  store_returned σ -> forall c t, σ !! c = Some t -> tree_inv t.
Proof. intros H c t Hc. apply returned_value_inv. eauto. Qed.

(** X20 (objects stay valid).  Move assignment, move construction and copy
    assignment, whether the latter returns or is left by [std::bad_alloc],
    take a store in which every object holds a value that returning calls
    produce to a store of the same kind: every tree in it is ordered and
    its [m_Size] counts its nodes. *)
Theorem objects_stay_valid σ σ' (this other : nat) avail :
  store_returned σ ->
  move_assign this other σ = Some σ' \/
  move_construct this other σ = Some σ' \/
  copy_assign this other avail σ = Some (Returned σ') \/
  copy_assign this other avail σ = Some (BadAlloc σ') ->
  store_returned σ' /\ (forall c t, σ' !! c = Some t -> tree_inv t).
Proof.
  intros Hσ H.
  assert (R : store_returned σ').
  { destruct H as [H|[H|H]].
    - exact (store_returned_move_assign σ σ' this other Hσ H).
    - exact (store_returned_move_construct σ σ' this other Hσ H).
    - exact (store_returned_copy_assign σ σ' this other avail Hσ H). }
  split; [exact R | now apply store_inv_of_returned].
Qed.

End Memory.

(* ===================================================================== *)
(** ** Writing through Find, and the lines of LevelByLevel               *)
(* ===================================================================== *)

Section Values.

Context {K V : Type} `{KT : KeyType K}.

Abbreviation NodePointer := (NodePointer K V).
Abbreviation BinarySearchTree := (BinarySearchTree K V).
Abbreviation Pair := (Pair K V).

Implicit Types (node l r : NodePointer) (t : BinarySearchTree)
  (d data : Pair) (key k : K) (v value : V) (depth n : nat).

Lemma keys_assign_at k v node : keys (assign_at k v node) = keys node.
Proof.
  induction node as [|d l IHl r IHr]; [reflexivity|].
  simpl. key_cases k (fst d); rewrite !keys_node; cbn [fst]; congruence.
Qed.

Lemma count_nodes_assign_at k v node :
  count_nodes (assign_at k v node) = count_nodes node.
Proof.
  induction node as [|d l IHl r IHr]; [reflexivity|].
  simpl. key_cases k (fst d); simpl; congruence.
Qed.

Lemma all_keys_assign_at (P : K -> Prop) k v node :
  all_keys P node -> all_keys P (assign_at k v node).
Proof.
  intros H. apply all_keys_Forall. rewrite keys_assign_at.
  now apply all_keys_Forall.
Qed.

Lemma bst_assign_at k v node : bst node -> bst (assign_at k v node).
Proof.
  induction node as [|d l IHl r IHr]; simpl; [trivial|].
  intros (Hl & Hr & Bl & Br).
  key_cases k (fst d); auto 6 using all_keys_assign_at.
Qed.

Lemma FindNode_assign_at_same k v node :
  nonnull (FindNode k node) = true ->
  data_of (FindNode k (assign_at k v node)) = Some (k, v).
Proof.
  induction node as [|d l IHl r IHr]; simpl; [discriminate|].
  key_cases k (fst d); auto.
  intros _. subst k. now rewrite key_ltb_irrefl.
Qed.

Lemma FindNode_assign_at_other k k' v node :
  k' <> k ->
  data_of (FindNode k' (assign_at k v node)) = data_of (FindNode k' node).
Proof.
  intros Hne. induction node as [|d l IHl r IHr]; simpl; [reflexivity|].
  key_cases k (fst d); key_cases k' (fst d); auto.
  subst. contradiction.
Qed.

(** X21 (writing through [Find]).  The write [tree.Find(k) = v] dereferences
    null exactly when [Contains(k)] is false.  Otherwise [Find(k)] returns
    [v] afterwards, the value of every other key, the keys, their order and
    [Size()] are as before, and a search tree stays a search tree. *)
Theorem Find_assign_updates_value t k v :
  (Find_assign k v t = None <-> Contains k t = false) /\
  (forall t', Find_assign k v t = Some t' ->
     Find k t' = Some v /\
     (forall k', k' <> k -> Find k' t' = Find k' t) /\
     keys (m_Root t') = keys (m_Root t) /\
     Size t' = Size t /\
     (bst (m_Root t) -> bst (m_Root t'))).
Proof.
  unfold Find_assign, Contains.
  destruct (nonnull (FindNode k (m_Root t))) eqn:E.
  - split; [split; discriminate|].
    intros t' [= <-]. unfold Find, Size. cbn [m_Root m_Size].
    split; [now rewrite FindNode_assign_at_same|].
    split; [intros k' Hne; now rewrite FindNode_assign_at_other|].
    split; [apply keys_assign_at|].
    split; [reflexivity | apply bst_assign_at].
  - split; [split; reflexivity | discriminate].
Qed.

Lemma level_values_beyond depth node :
  (height node <= depth)%nat -> level_values depth node = [].
Proof.
  revert depth. induction node as [|d l IHl r IHr]; intros depth H; [reflexivity|].
  simpl in H. destruct depth as [|depth]; [lia|].
  simpl. rewrite IHl, IHr by lia. reflexivity.
Qed.

Lemma level_values_nonempty depth node :
  (depth < height node)%nat -> level_values depth node <> [].
Proof.
  revert depth. induction node as [|d l IHl r IHr]; intros depth H; simpl in *; [lia|].
  destruct depth as [|depth]; [discriminate|].
  destruct (le_lt_dec (height l) depth) as [Hl|Hl].
  - rewrite (level_values_beyond depth l Hl). apply IHr. lia.
  - intros E. apply app_eq_nil in E as [E _]. exact (IHl depth Hl E).
Qed.

Lemma concat_map_app {A B} (f g : A -> list B) (xs : list A) :
  concat (map (fun x => f x ++ g x) xs) ≡ₚ concat (map f xs) ++ concat (map g xs).
Proof.
  induction xs as [|x xs IH]; [reflexivity|].
  simpl. rewrite IH, <- !app_assoc. apply Permutation_app_head.
  rewrite !app_assoc. apply Permutation_app_tail, Permutation_app_comm.
Qed.

Lemma concat_level_values n node :
  (height node <= n)%nat ->
  concat (map (fun depth => level_values depth node) (seq 0 n)) ≡ₚ values node.
Proof.
  revert n. induction node as [|d l IHl r IHr]; intros n H.
  - unfold values. clear H.
    induction (seq 0 n) as [|x xs IHxs]; simpl; [reflexivity | exact IHxs].
  - simpl in H. destruct n as [|n]; [lia|].
    cbn [seq map concat]. rewrite <- seq_shift, map_map.
    cbn [level_values]. rewrite concat_map_app, IHl, IHr by lia.
    unfold values. cbn [inorder]. rewrite map_app. cbn [map app].
    apply Permutation_middle.
Qed.

(** X22 ([LevelByLevel] writes each value once).  Given enough iterations,
    [LevelByLevel] writes as many lines as the tree is high, none of them
    without a value, and the values on them are the stored values, each
    written once. *)
Theorem LevelByLevel_each_value_once (show : V -> string) t (fuel : nat) :
  (count_nodes (m_Root t) + height (m_Root t) <= fuel)%nat ->
  exists lines : list (list V),
    LevelByLevel show fuel t = Some (render show lines) /\
    concat lines ≡ₚ values (m_Root t) /\
    length lines = height (m_Root t) /\
    Forall (fun line => line <> []) lines.
Proof.
  intros Hfuel. exists (levels (m_Root t)).
  split; [now apply LevelByLevel_levels|]. unfold levels.
  split; [now apply concat_level_values|].
  split; [now rewrite length_map, length_seq|].
  apply Forall_forall. intros line Hline.
  apply list_elem_of_In, in_map_iff in Hline as (depth & <- & Hd).
  apply in_seq in Hd. apply level_values_nonempty. lia.
Qed.

End Values.

(* ===================================================================== *)
(** ** Size while every call returns                                     *)
(* ===================================================================== *)

Section Counting.

Context {K V : Type} `{KT : KeyType K}.

Abbreviation BinarySearchTree := (BinarySearchTree K V).
Abbreviation Op := (Op K V).

(** X23 ([Size] while every call returns).  As long as no [new] throws,
    [Size()] is the number of nodes, held in a [std::size_t]: for every
    value that constructors, copies and returning calls of [Insert],
    [Erase] and [Clear] produce, it is the node count modulo [2^64], hence
    the node count and the length of the in-order traversal when that is
    below [2^64].  After a run of returning [Insert]/[Erase] calls from the
    empty tree with [N] inserts of absent keys and [M] erases of present
    keys, the tree has [N - M] nodes and [Size() == N - M]. *)
Theorem Size_counts_nodes_while_calls_return
    (t : BinarySearchTree) (ops : list Op) :
  (returned_value t ->
     Size t = Z.of_nat (count_nodes (m_Root t)) mod SIZE_MODULUS /\
     (Z.of_nat (count_nodes (m_Root t)) < SIZE_MODULUS ->
        Size t = Z.of_nat (count_nodes (m_Root t)) /\
        Size t = Z.of_nat (length (inorder (m_Root t))))) /\
  (Z.of_nat (count_nodes (m_Root (run ops empty_tree))) =
     Z.of_nat (fresh_inserts ops empty_tree)
       - Z.of_nat (present_erases ops empty_tree) /\
   (Z.of_nat (count_nodes (m_Root (run ops empty_tree))) < SIZE_MODULUS ->
      Size (run ops empty_tree) =
        Z.of_nat (fresh_inserts ops empty_tree)
          - Z.of_nat (present_erases ops empty_tree))).
Proof.
  split.
  - intros R. destruct (returned_value_inv t R) as [_ S]. split; [exact S|].
    intros Hlt. unfold Size. rewrite <- count_nodes_inorder, S.
    rewrite Z.mod_small by lia. auto.
  - pose proof (count_nodes_run ops (empty_tree : BinarySearchTree) I) as Hc.
    simpl in Hc. split; [exact Hc|].
    intros Hlt.
    destruct (tree_inv_run ops empty_tree tree_inv_empty) as [_ S].
    unfold Size. rewrite S, Z.mod_small by lia. exact Hc.
Qed.

End Counting.

(* ===================================================================== *)
(** ** The further properties at concrete trees                          *)
(* ===================================================================== *)

(** [Min()] of the scenario tree is the pair of key 1. *)
Lemma Min_is_least_witness : Min demo_tree = Some (1, 10).
Proof.
  destruct (Min_is_least demo_tree) as [H _].
  - vm_compute. tauto.
  - rewrite H. reflexivity.
Defined.

(** [Max()] of the scenario tree is the pair of key 9. *)
Lemma Max_is_greatest_witness : Max demo_tree = Some (9, 90).
Proof.
  destruct (Max_is_greatest demo_tree) as [H _].
  - vm_compute. tauto.
  - rewrite H. reflexivity.
Defined.

(** The root 5 of the scenario tree stays through an insert and the erase of
    another key. *)
Lemma Root_is_stable_witness :
  Root (run [OpInsert (6, 60); OpErase 3] demo_tree) = Some (5, 50).
Proof.
  apply (Root_is_stable demo_tree (5, 50) [OpInsert (6, 60); OpErase 3]).
  - reflexivity.
  - intros key [H|[H|[]]]; [discriminate H | injection H as <-; discriminate].
Defined.

(** [Empty()] on the empty tree and on the scenario tree; and the tree a
    failed [Insert((1, 10))] into the empty tree leaves. *)
Lemma Empty_iff_no_root_witness :
  (Empty (empty_tree : BinarySearchTree Z Z) = true <->
   m_Root (empty_tree : BinarySearchTree Z Z) = nullptr) /\
  (Empty demo_tree = true <-> m_Root demo_tree = nullptr) /\
  Empty miscounted_tree = false.
Proof.
  split; [|split].
  - apply (Empty_iff_no_root empty_tree (1, 10)); reflexivity.
  - apply (Empty_iff_no_root demo_tree (1, 10)); [reflexivity | vm_compute; reflexivity].
  - reflexivity.
Defined.

(** The scenario tree has size 7; after erasing 5, inserting 3 again and
    erasing the absent 42 the size is 7 - 1 = 6. *)
Lemma Size_counts_nodes_while_calls_return_witness :
  Size demo_tree = 7 /\ Size (run demo_ops empty_tree) = 6.
Proof.
  destruct (Size_counts_nodes_while_calls_return demo_tree demo_ops) as [H1 [_ H2]].
  split.
  - apply H1; [|vm_compute; reflexivity].
    unfold demo_tree, scenario_tree, run. simpl fold_left.
    repeat constructor.
  - rewrite H2; [|vm_compute; reflexivity]. vm_compute. reflexivity.
Defined.

(** Key 6 inserted into the scenario tree and erased again. *)
Lemma Erase_Insert_restores_witness :
  Erase 6 (Insert (6, 60) demo_tree) = demo_tree.
Proof.
  apply (Erase_Insert_restores demo_tree 6 60).
  - reflexivity.
  - vm_compute. split; [discriminate | reflexivity].
Defined.

Lemma Erase_idempotent_witness :
  Erase 5 (Erase 5 demo_tree) = Erase 5 demo_tree.
Proof.
  apply (Erase_idempotent demo_tree 5). vm_compute. tauto.
Defined.

(** Erasing 5 from the scenario tree leaves the keys 1, 3, 4, 7, 8, 9. *)
Lemma Erase_contents_witness :
  inorder (m_Root (Erase 5 demo_tree)) =
  [(1, 10); (3, 30); (4, 40); (7, 70); (8, 80); (9, 90)].
Proof.
  rewrite (Erase_contents demo_tree 5).
  - reflexivity.
  - vm_compute. tauto.
Defined.

(** Inserting 6 into the scenario tree puts it between 5 and 7. *)
Lemma Insert_contents_witness :
  inorder (m_Root (Insert (6, 60) demo_tree)) =
  [(1, 10); (3, 30); (4, 40); (5, 50); (6, 60); (7, 70); (8, 80); (9, 90)].
Proof.
  rewrite (Insert_contents demo_tree (6, 60)).
  - reflexivity.
  - vm_compute. tauto.
  - reflexivity.
Defined.

Lemma distinct_keys_commute_witness :
  inorder (m_Root (run [OpInsert (6, 60); OpErase 3] demo_tree)) =
  inorder (m_Root (run [OpErase 3; OpInsert (6, 60)] demo_tree)).
Proof.
  apply (distinct_keys_commute demo_tree (OpInsert (6, 60)) (OpErase 3)).
  - vm_compute. tauto.
  - discriminate.
Defined.

Lemma Find_iff_stored_witness :
  (Find 3 demo_tree = Some 30 <-> In (3, 30) (inorder (m_Root demo_tree))) /\
  (Contains 3 demo_tree = true <-> In 3 (keys (m_Root demo_tree))).
Proof.
  apply (Find_iff_stored demo_tree 3 30). vm_compute. tauto.
Defined.

(** Key 6 goes to the left link of the node 7 of the scenario tree. *)
Lemma Insert_adds_leaf_witness :
  exists path,
    subtree_at path (m_Root demo_tree) = nullptr /\
    m_Root (Insert (6, 60) demo_tree) =
      replace_at path (BinaryNode (6, 60) nullptr nullptr) (m_Root demo_tree) /\
    subtree_at path (m_Root (Insert (6, 60) demo_tree)) =
      BinaryNode (6, 60) nullptr nullptr /\
    count_nodes (m_Root (Insert (6, 60) demo_tree)) = S (count_nodes (m_Root demo_tree)).
Proof.
  apply (Insert_adds_leaf demo_tree (6, 60)). reflexivity.
Defined.

(** Erasing the leaf 1 of the scenario tree. *)
Lemma erase_at_most_one_child_witness :
  m_Root (Erase 1 demo_tree) =
    replace_at [GoLeft; GoLeft] nullptr (m_Root demo_tree) /\
  Size (Erase 1 demo_tree) = 6.
Proof.
  destruct (erase_at_most_one_child demo_tree [GoLeft; GoLeft] 1 10 nullptr nullptr)
    as (H1 & H2 & _).
  - vm_compute. tauto.
  - reflexivity.
  - reflexivity.
  - split; [exact H1 | rewrite H2; reflexivity].
Defined.

(** Keys 1, 2, 3 inserted in that order. *)
Lemma increasing_inserts_degenerate_witness :
  m_Root (run (map OpInsert [(1, 10); (2, 20); (3, 30)])
            (empty_tree : BinarySearchTree Z Z))
    = right_chain [(1, 10); (2, 20); (3, 30)] /\
  height (m_Root (run (map OpInsert [(1, 10); (2, 20); (3, 30)])
                    (empty_tree : BinarySearchTree Z Z))) = 3%nat /\
  count_nodes (m_Root (run (map OpInsert [(1, 10); (2, 20); (3, 30)])
                         (empty_tree : BinarySearchTree Z Z))) = 3%nat.
Proof.
  apply (increasing_inserts_degenerate [(1, 10); (2, 20); (3, 30)]).
  repeat (constructor; try reflexivity).
Defined.

(** A failed insert of key 6 into the scenario tree: 7 nodes, [Size()] 8. *)
Lemma failed_Insert_miscounts_witness :
  exists t' : BinarySearchTree Z Z,
    Insert_alloc (6, 60) 0 demo_tree = BadAlloc t' /\
    m_Root t' = m_Root demo_tree /\
    Size t' = Z.of_nat (count_nodes (m_Root t')) + 1 /\
    ~ size_consistent t'.
Proof.
  apply (failed_Insert_miscounts (6, 60) demo_tree).
  - reflexivity.
  - vm_compute. reflexivity.
  - reflexivity.
Defined.

(** Moving the object at address 1 into the object at address 0. *)
Lemma objects_stay_valid_witness :
  store_returned (<[1%nat := empty_tree]> (<[0%nat := init_tree (2, 20)]> demo_store)) /\
  (forall c t,
     <[1%nat := empty_tree]> (<[0%nat := init_tree (2, 20)]> demo_store) !! c = Some t ->
     tree_inv t).
Proof.
  apply (objects_stay_valid demo_store _ 0 1 0).
  - intros c t. unfold demo_store. rewrite !lookup_insert.
    repeat case_decide; intros [= <-]; constructor.
  - left. apply (move_assign_distinct demo_store 1 0 (init_tree (2, 20)) (init_tree (1, 10)));
      [reflexivity | reflexivity | discriminate].
Defined.

(** The scenario tree: three lines, seven values. *)
Lemma LevelByLevel_each_value_once_witness :
  exists lines : list (list string),
    LevelByLevel id 10 (scenario_tree demo_name) = Some (render id lines) /\
    concat lines ≡ₚ values (m_Root (scenario_tree demo_name)) /\
    length lines = height (m_Root (scenario_tree demo_name)) /\
    Forall (fun line => line <> []) lines.
Proof.
  apply (LevelByLevel_each_value_once id (scenario_tree demo_name) 10).
  vm_compute. lia.
Defined.
